(** * mysmartnotes: chunking, ranking, embeddings and background tasks

    A shallow embedding of the processing core of the application:
    - [app/processing/ocr.py]        ([OCRProcessor.chunk_text]),
    - [app/processing/search.py]     ([EmbeddingsManager]),
    - [app/processing/embeddings.py] (module-level embedding helpers),
    - [app/utils/tasks.py]           ([TaskManager]).

    Python integers are [Z], Python [str] values are lists of characters,
    [float] is the binary64 primitive type, dictionaries are [gmap]s and a
    call that may raise returns a [pyresult]. *)

From Stdlib Require Import ZArith Lia List Ascii String Bool PrimFloat.
From Stdlib Require Import Sorting.Permutation Sorting.Sorted.
From stdpp Require Import gmap strings.

Local Open Scope Z_scope.

(* ===================================================================== *)
(** * Part I: the embedding *)
(* ===================================================================== *)

(** ** Python values and built-ins used by the code *)

Module Py.

(** An exception object: its class name and what [str(e)] returns. *)
Record exn := Exn { exn_class : string; exn_str : string }.

Definition ValueError (msg : string) : exn := Exn "ValueError" msg.

(** What [except Exception] catches: the exceptions whose class derives
    from [Exception].  An exception is told by the name of its class;
    the built-in classes that derive from [BaseException] only are
    [BaseException] itself, [SystemExit], [KeyboardInterrupt],
    [GeneratorExit], [BaseExceptionGroup] and the [CancelledError] of
    [asyncio]. *)
Definition is_Exception (e : exn) : bool :=
  negb (existsb (String.eqb (exn_class e))
          ["BaseException"; "SystemExit"; "KeyboardInterrupt";
           "GeneratorExit"; "BaseExceptionGroup"; "CancelledError"]).

(** The outcome of a call: a value, or a raised exception. *)
Inductive pyresult (A : Type) : Type :=
| Ok (a : A)
| Raise (e : exn).
Arguments Ok {A} a.
Arguments Raise {A} e.

Definition bind {A B} (r : pyresult A) (k : A -> pyresult B) : pyresult B :=
  match r with
  | Ok a => k a
  | Raise e => Raise e
  end.

Definition raises {A} (r : pyresult A) : bool :=
  match r with Ok _ => false | Raise _ => true end.

(** [str]: a sequence of characters. *)
Definition str := list ascii.

Definition txt (s : string) : str := list_ascii_of_string s.

(** [str.isspace] on one character (code points below 256): the
    controls TAB..CR and FS..US, the space, NEL and NBSP. *)
Definition is_space (c : ascii) : bool :=
  let n := N_of_ascii c in
  (((9 <=? n) && (n <=? 13)) || ((28 <=? n) && (n <=? 32))
   || (n =? 133) || (n =? 160))%N.

(** A run of non-whitespace characters is a token unless it is empty. *)
Definition cons_token (w : str) (ws : list str) : list str :=
  match w with
  | [] => ws
  | _ :: _ => w :: ws
  end.

(** [scan s] reads [s] from the left: the first component is the run of
    non-whitespace characters [s] starts with, the second the tokens
    that follow it. *)
Fixpoint scan (s : str) : str * list str :=
  match s with
  | [] => ([], [])
  | c :: s' =>
      let (w, ws) := scan s' in
      if is_space c then ([], cons_token w ws) else (c :: w, ws)
  end.

(** [s.split()]: the maximal runs of non-whitespace characters. *)
Definition split (s : str) : list str :=
  let (w, ws) := scan s in cons_token w ws.

(** [s.lstrip()], [s.rstrip()], [s.strip()]. *)
Fixpoint lstrip (s : str) : str :=
  match s with
  | [] => []
  | c :: s' => if is_space c then lstrip s' else s
  end.

Definition rstrip (s : str) : str := rev (lstrip (rev s)).

Definition strip (s : str) : str := rstrip (lstrip s).

(** Truth value of a string: non-empty. *)
Definition truthy (s : str) : bool :=
  match s with
  | [] => false
  | _ :: _ => true
  end.

(** [sep.join(ws)]. *)
Fixpoint join (sep : str) (ws : list str) : str :=
  match ws with
  | [] => []
  | w :: ws' =>
      match ws' with
      | [] => w
      | _ :: _ => w ++ sep ++ join sep ws'
      end
  end.

(** [len(range(start, stop, step))] for a non-zero step. *)
Definition range_len (start stop step : Z) : nat :=
  if 0 <? step
  then if start <? stop then Z.to_nat ((stop - start - 1) / step + 1) else 0%nat
  else if stop <? start then Z.to_nat ((start - stop - 1) / (- step) + 1) else 0%nat.

(** [range(start, stop, step)]; a zero step raises [ValueError]. *)
Definition range (start stop step : Z) : pyresult (list Z) :=
  if step =? 0
  then Raise (ValueError "range() arg 3 must not be zero")
  else Ok (map (fun i => start + Z.of_nat i * step)
               (seq 0 (range_len start stop step))).

(** A slice bound: negative bounds count from the end, and every bound
    is clamped to [0, len]. *)
Definition clamp_index (len i : Z) : Z :=
  if i <? 0 then Z.max (i + len) 0 else Z.min i len.

(** [l[lo:hi]]. *)
Definition slice {A} (l : list A) (lo hi : Z) : list A :=
  let len := Z.of_nat (length l) in
  let a := clamp_index len lo in
  let b := clamp_index len hi in
  firstn (Z.to_nat (b - a)) (skipn (Z.to_nat a) l).

(** [l[:hi]]. *)
Definition slice_to {A} (l : list A) (hi : Z) : list A := slice l 0 hi.

(** [l.sort(key=key, reverse=True)].  Python's sort is stable, also
    with [reverse=True]: entries whose keys compare equal keep their
    relative order.  It is modelled by the stable insertion sort below;
    [lt] is the [<] of the keys, the only comparison the sort uses.
    Whenever [lt] is a strict weak order (as [<] is on floats other
    than NaN) every stable sort computes this same list.  With keys
    that [<] does not order so (a NaN among floats) Python returns some
    rearrangement of the list that need not be this one: of such keys
    only that the result is a rearrangement of the input is used. *)
Section Sort.
Context {A K : Type} (lt : K -> K -> bool) (key : A -> K).

Fixpoint insert_desc (x : A) (l : list A) : list A :=
  match l with
  | [] => [x]
  | y :: l' =>
      if lt (key x) (key y) then y :: insert_desc x l' else x :: l
  end.

Definition sort_desc (l : list A) : list A :=
  fold_right insert_desc [] l.
End Sort.

(** [numpy] on one-dimensional arrays of floats.  [np.dot] raises
    [ValueError] when the shapes differ; the order in which it adds
    the products is left to the BLAS, the model adds from the left. *)
Definition np_dot (a b : list float) : pyresult float :=
  if (length a =? length b)%nat
  then Ok (fold_left (fun acc p => (acc + fst p * snd p)%float)
                     (combine a b) 0%float)
  else Raise (ValueError "shapes not aligned").

Definition np_norm (a : list float) : float :=
  PrimFloat.sqrt (fold_left (fun acc x => (acc + x * x)%float) a 0%float).

(** [s.startswith(prefix)]. *)
Fixpoint startswith (s prefix : str) : bool :=
  match prefix, s with
  | [], _ => true
  | _ :: _, [] => false
  | p :: prefix', c :: s' => Ascii.eqb c p && startswith s' prefix'
  end.

(** [s.endswith(suffix)], and [s.endswith((suffix1, suffix2, ...))]. *)
Definition endswith (s suffix : str) : bool := startswith (rev s) (rev suffix).

Definition endswith_any (s : str) (suffixes : list str) : bool :=
  existsb (endswith s) suffixes.

(** [needle in hay] on strings: [needle] occurs somewhere in [hay]. *)
Fixpoint contains (needle hay : str) : bool :=
  startswith hay needle
  || match hay with
     | [] => false
     | _ :: hay' => contains needle hay'
     end.

(** [s.lower()] on code points below 256: the letters A..Z and the
    capital letters of Latin-1 (all of U+00C0..U+00DE but the
    multiplication sign) move up by 32. *)
Definition lower_char (c : ascii) : ascii :=
  let n := N_of_ascii c in
  if (((65 <=? n) && (n <=? 90))
      || ((192 <=? n) && (n <=? 222) && negb (n =? 215)))%N
  then ascii_of_N (n + 32)
  else c.

Definition lower (s : str) : str := map lower_char s.

End Py.

Import Py.

Notation "x <- r ;; k" := (bind r (fun x => k))
  (at level 100, r at next level, right associativity).

(** ** [app/processing/ocr.py] *)

Module OCRProcessor.

(** One iteration of the loop of [chunk_text]:
<<
    chunk = " ".join(words[i:i + chunk_size])
    if chunk.strip():
        chunks.append(chunk)
>> *)
Definition chunk_step (words : list str) (chunk_size : Z)
    (chunks : list str) (i : Z) : list str :=
  let chunk := join (txt " ") (slice words i (i + chunk_size)) in
  if truthy (strip chunk) then chunks ++ [chunk] else chunks.

(** [OCRProcessor.chunk_text(text, chunk_size, overlap)]. *)
Definition chunk_text (text : str) (chunk_size overlap : Z)
  : pyresult (list str) :=
  let words := split text in
  idxs <- range 0 (Z.of_nat (length words)) (chunk_size - overlap) ;;
  Ok (fold_left (chunk_step words chunk_size) idxs []).

(** [OCRProcessor.extract_text(file_path, file_type)].  The three
    extractors call the OCR and document libraries; they return the
    extracted text or re-raise what those raise. *)
Section Extractors.
Variable extract_from_pdf : str -> pyresult str.
Variable extract_from_pptx : str -> pyresult str.
Variable extract_from_image : str -> pyresult str.

Definition extract_text (file_path file_type : str) : pyresult str :=
  if contains (txt "pdf") (lower file_type)
  then extract_from_pdf file_path
  else if contains (txt "pptx") (lower file_type)
          || contains (txt "presentation") (lower file_type)
  then extract_from_pptx file_path
  else if contains (txt "image") (lower file_type)
          || endswith_any (lower file_type) [txt ".png"; txt ".jpg"; txt ".jpeg"]
  then extract_from_image file_path
  else Raise (ValueError (String.append "Unsupported file type: "
                            (string_of_list_ascii file_type))).
End Extractors.

End OCRProcessor.

(** ** [app/processing/search.py] *)

Module EmbeddingsManager.

(** [EmbeddingsManager.cosine_similarity(vec1, vec2)] on float arrays. *)
Definition cosine_similarity (vec1 vec2 : list float) : pyresult float :=
  dot_product <- np_dot vec1 vec2 ;;
  let norm_vec1 := np_norm vec1 in
  let norm_vec2 := np_norm vec2 in
  if (norm_vec1 =? 0)%float || (norm_vec2 =? 0)%float
  then Ok 0%float
  else Ok (dot_product / (norm_vec1 * norm_vec2))%float.

(** [EmbeddingsManager.__init__]: the external model is constructed
    and asked for its dimension; a failure is logged and re-raised.
    [SentenceTransformer] stands for both calls. *)
Definition __init__ {Model : Type} (SentenceTransformer : string -> pyresult Model)
    (model_name : string) : pyresult Model :=
  match SentenceTransformer model_name with
  | Ok model => Ok model
  | Raise e => Raise e
  end.

(** Ranking, for a manager whose model is loaded.  The model is an
    external capability: [embed_text] and [embed_texts] stand for
    [self.model.encode] on one text and on a list of texts,
    [similarity] for [self.cosine_similarity] on two of its vectors
    (which all have the dimension of the model, so that [np.dot]
    does not raise) and [lt] for [<] on the scores. *)
Section Ranking.
Context {Vec Score : Type}.
Variable embed_text : str -> Vec.
Variable embed_texts : list str -> list Vec.
Variable similarity : Vec -> Vec -> Score.
Variable lt : Score -> Score -> bool.

(** The loop that fills [similarities]. *)
Definition score_all (query_embedding : Vec)
    (documents : list str) (doc_embeddings : list Vec)
  : list (str * Score) :=
  map (fun de => (fst de, similarity query_embedding (snd de)))
      (combine documents doc_embeddings).

(** [EmbeddingsManager.search(query, documents, top_k)]. *)
Definition search (query : str) (documents : list str) (top_k : Z)
  : pyresult (list (str * Score)) :=
  let query_embedding := embed_text query in
  let doc_embeddings := embed_texts documents in
  let similarities := score_all query_embedding documents doc_embeddings in
  let similarities := sort_desc lt snd similarities in
  Ok (slice_to similarities top_k).

(** One iteration of the loop of [batch_search]. *)
Definition batch_step (query : str) (documents : list str) (chunk_size : Z)
    (acc : pyresult (list (str * Score))) (i : Z)
  : pyresult (list (str * Score)) :=
  all_results <- acc ;;
  let batch := slice documents i (i + chunk_size) in
  results <- search query batch (Z.of_nat (length batch)) ;;
  Ok (all_results ++ results).

(** [EmbeddingsManager.batch_search(query, documents, chunk_size, top_k)]. *)
Definition batch_search (query : str) (documents : list str)
    (chunk_size top_k : Z) : pyresult (list (str * Score)) :=
  idxs <- range 0 (Z.of_nat (length documents)) chunk_size ;;
  all_results <- fold_left (batch_step query documents chunk_size) idxs (Ok []) ;;
  let all_results := sort_desc lt snd all_results in
  Ok (slice_to all_results top_k).
End Ranking.

End EmbeddingsManager.

(** ** [app/processing/embeddings.py] *)

Module Embeddings.

(** [similarity(embedding1, embedding2)]: no guard on the norms; any
    exception is turned into [0.0].  Dividing numpy floats by zero
    does not raise, it yields an infinity or NaN. *)
Definition similarity (embedding1 embedding2 : list float) : float :=
  match np_dot embedding1 embedding2 with
  | Ok d => (d / (np_norm embedding1 * np_norm embedding2))%float
  | Raise _ => 0%float
  end.

(** The module keeps the model in the global [embedding_model]; every
    function takes its current value and returns the new one. *)
Section Model.
Context {Model : Type}.
Variable SentenceTransformer : string -> pyresult Model.
Variable encode : Model -> str -> pyresult (list float).
Variable encode_many : Model -> list str -> pyresult (list (list float)).

(** [get_embeddings_model()]: a failure to load that is an [Exception]
    is logged and [None] is returned; any other exception of the loader
    passes through [except Exception].  Either way the global stays
    unset. *)
Definition get_embeddings_model (embedding_model : option Model)
  : pyresult (option Model) * option Model :=
  match embedding_model with
  | None =>
      match SentenceTransformer "sentence-transformers/all-MiniLM-L6-v2" with
      | Ok m => (Ok (Some m), Some m)
      | Raise e => if is_Exception e then (Ok None, None) else (Raise e, None)
      end
  | Some m => (Ok (Some m), Some m)
  end.

(** [embed_text(text)]. *)
Definition embed_text (text : str) (embedding_model : option Model)
  : pyresult (list float) * option Model :=
  let (model, g) := get_embeddings_model embedding_model in
  match model with
  | Raise e => (Raise e, g)
  | Ok None => (Ok [], g)
  | Ok (Some m) =>
      match encode m text with
      | Ok embedding => (Ok embedding, g)
      | Raise e => if is_Exception e then (Ok [], g) else (Raise e, g)
      end
  end.

(** [embed_texts(texts)]. *)
Definition embed_texts (texts : list str) (embedding_model : option Model)
  : pyresult (list (list float)) * option Model :=
  let (model, g) := get_embeddings_model embedding_model in
  match model, texts with
  | Raise e, _ => (Raise e, g)
  | Ok None, _ => (Ok [], g)
  | Ok (Some _), [] => (Ok [], g)
  | Ok (Some m), _ :: _ =>
      match encode_many m texts with
      | Ok embeddings => (Ok embeddings, g)
      | Raise e => if is_Exception e then (Ok [], g) else (Raise e, g)
      end
  end.
End Model.

(** [find_similar(query_embedding, embeddings, top_k)].  [vector d]
    stands for [d["vector"]], which raises [KeyError] when the
    dictionary has no such entry.  The sort compares the similarities
    with [<] on floats; where a similarity is NaN the order that Python
    produces is not fixed by the comparisons, and nothing proved of
    [find_similar] depends on the order. *)
Section FindSimilar.
Context {Dict : Type}.
Variable vector : Dict -> pyresult (list float).

(** One iteration of the loop over [enumerate(embeddings)]. *)
Definition similar_step (query_embedding : list float)
    (acc : pyresult (list (nat * float * Dict))) (ie : nat * Dict)
  : pyresult (list (nat * float * Dict)) :=
  similarities <- acc ;;
  v <- vector (snd ie) ;;
  let sim := similarity query_embedding v in
  Ok (similarities ++ [(fst ie, sim, snd ie)]).

Definition find_similar (query_embedding : list float)
    (embeddings : list Dict) (top_k : Z) : pyresult (list Dict) :=
  match embeddings, query_embedding with
  | [], _ => Ok []
  | _, [] => Ok []
  | _ :: _, _ :: _ =>
      similarities <- fold_left (similar_step query_embedding)
                        (combine (seq 0 (length embeddings)) embeddings)
                        (Ok []) ;;
      let similarities :=
        sort_desc PrimFloat.ltb (fun s => snd (fst s)) similarities in
      Ok (map snd (slice_to similarities top_k))
  end.
End FindSimilar.

End Embeddings.

(** ** [app/utils/tasks.py] *)

Module TaskManager.

(** The values of the ["status"] entry. *)
Inductive task_state := pending | running | completed | failed.

(** A record of [tasks_tracking].  [result] and [error] are [None]
    until they are assigned; the times are readings of the clock, which
    the operations that read it take as [now]. *)
Record task := Task {
  status : task_state;
  created_at : Z;
  updated_at : Z;
  result : option string;
  error : option string;
  progress : Z
}.

Definition set_status (st : task_state) (t : task) : task :=
  Task st (created_at t) (updated_at t) (result t) (error t) (progress t).
Definition set_result (v : option string) (t : task) : task :=
  Task (status t) (created_at t) (updated_at t) v (error t) (progress t).
Definition set_error (msg : option string) (t : task) : task :=
  Task (status t) (created_at t) (updated_at t) (result t) msg (progress t).
Definition set_progress (p : Z) (t : task) : task :=
  Task (status t) (created_at t) (updated_at t) (result t) (error t) p.
Definition set_updated_at (now : Z) (t : task) : task :=
  Task (status t) (created_at t) now (result t) (error t) (progress t).

(** What calling the task function does: it returns a value
    (possibly [None]), it raises an exception, or it does not return
    (the executor sets no time limit). *)
Inductive outcome :=
| Returns (v : option string)
| Raises (e : exn)
| Blocks.

(** Where control goes after the call inside [_execute_task]: on, in
    the [try] block or in the handler of [except Exception]; out of
    [_execute_task], with an exception that is not an [Exception]; or
    nowhere, as long as the call has not returned. *)
Inductive control := Continues | Escapes | Waits.

Definition after_call (o : outcome) : control :=
  match o with
  | Returns _ => Continues
  | Raises e => if is_Exception e then Continues else Escapes
  | Blocks => Waits
  end.

(** A work item handed to [task_executor]:
    [_execute_task(task_id, task_func, ...)]. *)
Record job := Job { job_id : string; job_work : outcome }.

(** How far [_execute_task] has got once it is running: [task_func] is
    being called, the final status has been assigned, the result or
    the error has been assigned. *)
Inductive phase := Started | StatusSet | PayloadSet.

(** The module state: the dictionary [tasks_tracking] and the executor
    with its FIFO queue and the work items its threads are running. *)
Record pool := Pool {
  tasks_tracking : gmap string task;
  queue : list job;
  active : list (job * phase)
}.

Definition max_workers : nat := 5.

Definition initial : pool := Pool ∅ [] [].

Definition fresh_task (now : Z) : task :=
  Task pending now now None None 0.

(** [TaskManager.submit_task(task_id, task_func, ...)]: the record is
    (re)created and the work queued; nothing is checked. *)
Definition submit_task (task_id : string) (work : outcome) (now : Z) (s : pool)
  : pyresult string * pool :=
  (Ok task_id,
   Pool (<[task_id := fresh_task now]> (tasks_tracking s))
        (queue s ++ [Job task_id work])
        (active s)).

(** The assignments of [_execute_task], one at a time: the one before
    the call, then those of the [try] block for a work that has
    returned and those of the handler for a work that has raised. *)
Definition assign_running (task_id : string) (reg : gmap string task) :=
  alter (set_status running) task_id reg.

Definition assign_status (task_id : string) (o : outcome) (reg : gmap string task) :=
  match o with
  | Returns _ => alter (set_status completed) task_id reg
  | Raises _ => alter (set_status failed) task_id reg
  | Blocks => reg
  end.

Definition assign_payload (task_id : string) (o : outcome) (reg : gmap string task) :=
  match o with
  | Returns v => alter (set_result v) task_id reg
  | Raises e => alter (set_error (Some (exn_str e))) task_id reg
  | Blocks => reg
  end.

Definition assign_progress (task_id : string) (o : outcome) (reg : gmap string task) :=
  match o with
  | Returns _ => alter (set_progress 100) task_id reg
  | Raises _ => alter (set_progress 0) task_id reg
  | Blocks => reg
  end.

(** [TaskManager._execute_task(task_id, task_func, ...)] run without
    interruption; [None] when the call of the work does not return.
    Indexing [tasks_tracking] with an unknown id raises [KeyError], in
    the [try] block and again in the handler.  An exception of the work
    that is not an [Exception] is not handled: it leaves
    [_execute_task] after the first assignment. *)
Definition _execute_task (task_id : string) (work : outcome) (reg : gmap string task)
  : option (pyresult unit * gmap string task) :=
  match reg !! task_id with
  | None => Some (Raise (Exn "KeyError" task_id), reg)
  | Some _ =>
      let reg := assign_running task_id reg in
      let assigned :=
        assign_progress task_id work
          (assign_payload task_id work (assign_status task_id work reg)) in
      match work with
      | Returns _ => Some (Ok tt, assigned)
      | Raises e =>
          if is_Exception e then Some (Ok tt, assigned) else Some (Raise e, reg)
      | Blocks => None
      end
  end.

(** [TaskManager.get_task_status(task_id)]. *)
Definition get_task_status (task_id : string) (s : pool) : option task :=
  tasks_tracking s !! task_id.

(** [TaskManager.update_task_progress(task_id, progress)]. *)
Definition update_task_progress (task_id : string) (p : Z) (now : Z) (s : pool)
  : pool :=
  match tasks_tracking s !! task_id with
  | Some _ =>
      Pool (alter (set_updated_at now)
              task_id (alter (set_progress (Z.min 100 (Z.max 0 p)))
                         task_id (tasks_tracking s)))
           (queue s) (active s)
  | None => s
  end.

(** What can happen next: a call of the interface, a worker thread
    taking the oldest queued item (at most [max_workers] run at a
    time) and starting [_execute_task], or the [n]-th running item
    taking its next step.  That step is the next assignment when the
    call of the work has returned or has raised an [Exception].  When
    it has raised anything else, the exception leaves [_execute_task]:
    the executor stores it in the future, which [submit_task] has
    dropped, and the thread is free again, the record left as it is.
    While the call has not returned there is no step. *)
Inductive event :=
| Submit (task_id : string) (work : outcome) (now : Z)
| Dispatch
| Advance (n : nat)
| Progress (task_id : string) (p : Z) (now : Z)
| GetStatus (task_id : string).

Definition advance (n : nat) (s : pool) : option pool :=
  match active s !! n with
  | None => None
  | Some (j, ph) =>
      match after_call (job_work j), ph with
      | Waits, _ => None
      | Escapes, _ =>
          Some (Pool (tasks_tracking s) (queue s) (delete n (active s)))
      | Continues, Started =>
          Some (Pool (assign_status (job_id j) (job_work j) (tasks_tracking s))
                     (queue s) (<[n := (j, StatusSet)]> (active s)))
      | Continues, StatusSet =>
          Some (Pool (assign_payload (job_id j) (job_work j) (tasks_tracking s))
                     (queue s) (<[n := (j, PayloadSet)]> (active s)))
      | Continues, PayloadSet =>
          Some (Pool (assign_progress (job_id j) (job_work j) (tasks_tracking s))
                     (queue s) (delete n (active s)))
      end
  end.

Definition step (ev : event) (s : pool) : option pool :=
  match ev with
  | Submit task_id work now => Some (snd (submit_task task_id work now s))
  | Dispatch =>
      match queue s with
      | j :: q =>
          if (length (active s) <? max_workers)%nat
          then Some (Pool (assign_running (job_id j) (tasks_tracking s))
                          q (active s ++ [(j, Started)]))
          else None
      | [] => None
      end
  | Advance n => advance n s
  | Progress task_id p now => Some (update_task_progress task_id p now s)
  | GetStatus _ => Some s
  end.

Fixpoint run (evs : list event) (s : pool) : option pool :=
  match evs with
  | [] => Some s
  | ev :: evs' =>
      match step ev s with
      | Some s' => run evs' s'
      | None => None
      end
  end.

End TaskManager.

(** ** [app/utils/tasks.py]: the OCR task *)

Module OCRTask.

(** The dictionary that [process_file] returns. *)
Record ocr_result := OcrResult {
  extracted_text : str;
  chunks : list str;
  chunk_count : Z
}.

Section Extractors.
Variable extract_from_pdf : str -> pyresult str.
Variable extract_from_pptx : str -> pyresult str.
Variable extract_from_image : str -> pyresult str.

(** [OCRTask.process_file(file_path)]. *)
Definition process_file (file_path : str) : pyresult ocr_result :=
  file_type <-
    (if endswith file_path (txt ".pdf")
     then Ok (txt "application/pdf")
     else if endswith file_path (txt ".pptx")
     then Ok (txt "application/vnd.openxmlformats-officedocument.presentationml.presentation")
     else if endswith_any (lower file_path) [txt ".png"; txt ".jpg"; txt ".jpeg"]
     then Ok (txt "image/jpeg")
     else Raise (ValueError (String.append "Unsupported file type: "
                               (string_of_list_ascii file_path)))) ;;
  extracted_text <-
    OCRProcessor.extract_text extract_from_pdf extract_from_pptx
      extract_from_image file_path file_type ;;
  chunks <- OCRProcessor.chunk_text extracted_text 500 50 ;;
  Ok (OcrResult extracted_text chunks (Z.of_nat (length chunks))).
End Extractors.

End OCRTask.

(** ** [app/routers/search.py] *)

Module SearchRouter.

(** What a request handler does: it returns, or it raises an
    [HTTPException], or another [Exception], the kind of failure that
    the handlers catch with [except Exception]. *)
Inductive handled (A : Type) : Type :=
| Returned (a : A)
| HTTPException (status_code : Z) (detail : string)
| Raised (e : exn).
Arguments Returned {A} a.
Arguments HTTPException {A} status_code detail.
Arguments Raised {A} e.

(** The columns of a [Lecture] row that the handler reads. *)
Record Lecture := {
  id : Z;
  title : str;
  extracted_text : option str
}.

(** An entry of [chunk_metadata]. *)
Record metadata := Metadata {
  meta_lecture_id : Z;
  meta_lecture_title : str;
  meta_content : str
}.

Section Handler.
Context {Vec Score : Type}.
Variable embed_text : str -> Vec.
Variable embed_texts : list str -> list Vec.
Variable similarity : Vec -> Vec -> Score.
Variable lt : Score -> Score -> bool.

(** [get_embeddings_manager()]: a manager, an [HTTPException] with
    status 503 when the import fails, or whatever else constructing the
    manager raises. *)
Variable get_embeddings_manager : handled unit.

Record SearchResult := {
  content : str;
  score : Score;
  lecture_id : Z;
  lecture_title : str
}.

Record SearchResponse := {
  query : str;
  results : list SearchResult;
  total_results : Z
}.

(** One iteration of the loop over [lectures]: a lecture without text
    is skipped, the chunks of the others are appended with their
    metadata. *)
Definition collect_step (acc : pyresult (list str * list metadata))
    (lecture : Lecture) : pyresult (list str * list metadata) :=
  state <- acc ;;
  match extracted_text lecture with
  | None => Ok state
  | Some [] => Ok state
  | Some (c :: text) =>
      chunks <- OCRProcessor.chunk_text (c :: text) 500 50 ;;
      Ok (fst state ++ chunks,
          snd state ++ map (Metadata (id lecture) (title lecture)) chunks)
  end.

(** The inner loop of the response: the first metadata entry with the
    content of the chunk, if there is one. *)
Definition result_for (chunk_metadata : list metadata) (hit : str * Score)
  : list SearchResult :=
  match find (fun m => bool_decide (meta_content m = fst hit)) chunk_metadata with
  | Some m => [Build_SearchResult (fst hit) (snd hit)
                 (meta_lecture_id m) (meta_lecture_title m)]
  | None => []
  end.

(** [semantic_search(request, ...)], given the lectures that the query
    on the database returns.  An [HTTPException] is re-raised, every
    other exception becomes one with status 500. *)
Definition semantic_search (request_query : str) (request_top_k : Z)
    (lectures : list Lecture) : handled SearchResponse :=
  match lectures with
  | [] => HTTPException 404 "No lectures found to search"
  | _ :: _ =>
      match fold_left collect_step lectures (Ok ([], [])) with
      | Raise e => HTTPException 500 (String.append "Search error: " (exn_str e))
      | Ok (all_chunks, chunk_metadata) =>
          match all_chunks with
          | [] => HTTPException 400
                    "No text content available in lectures for search"
          | _ :: _ =>
              match get_embeddings_manager with
              | HTTPException status_code detail =>
                  HTTPException status_code detail
              | Raised e =>
                  HTTPException 500 (String.append "Search error: " (exn_str e))
              | Returned _ =>
                  match EmbeddingsManager.search embed_text embed_texts
                          similarity lt request_query all_chunks request_top_k with
                  | Raise e =>
                      HTTPException 500
                        (String.append "Search error: " (exn_str e))
                  | Ok hits =>
                      let search_results :=
                        concat (map (result_for chunk_metadata) hits) in
                      Returned (Build_SearchResponse request_query search_results
                                  (Z.of_nat (length search_results)))
                  end
              end
          end
      end
  end.
(** A row of [other_lectures]: the filter of that query leaves out the
    lectures without text. *)
Record OtherLecture := {
  other_id : Z;
  other_title : str;
  other_text : str;
  other_subject_id : option Z
}.

(** An entry of [similar_lectures]. *)
Record SimilarLecture := {
  similar_id : Z;
  similar_title : str;
  similarity_score : Score;
  similar_subject_id : option Z
}.

(** The inner loop of the answer: the first of the other lectures
    whose text starts with the first 500 characters of the content. *)
Definition similar_for (other_lectures : list OtherLecture) (hit : str * Score)
  : list SimilarLecture :=
  match find (fun l => startswith (other_text l) (slice_to (fst hit) 500))
             other_lectures with
  | Some l => [Build_SimilarLecture (other_id l) (other_title l) (snd hit)
                 (other_subject_id l)]
  | None => []
  end.

(** [get_similar_lectures(lecture_id, ...)], given the rows that its two
    queries on the database return. *)
Definition get_similar_lectures (source_lecture : option Lecture)
    (other_lectures : list OtherLecture) : handled (list SimilarLecture) :=
  match source_lecture with
  | None => HTTPException 404 "Lecture not found or has no content"
  | Some source =>
      match extracted_text source with
      | None => HTTPException 404 "Lecture not found or has no content"
      | Some [] => HTTPException 404 "Lecture not found or has no content"
      | Some (c :: text) =>
          match other_lectures with
          | [] => Returned []
          | _ :: _ =>
              match OCRProcessor.chunk_text (c :: text) 500 50 with
              | Raise e =>
                  HTTPException 500
                    (String.append "Error finding similar lectures: " (exn_str e))
              | Ok [] => Returned []
              | Ok (source_chunk :: _) =>
                  match get_embeddings_manager with
                  | HTTPException status_code detail =>
                      HTTPException status_code detail
                  | Raised e =>
                      HTTPException 500
                        (String.append "Error finding similar lectures: "
                           (exn_str e))
                  | Returned _ =>
                      let other_contents :=
                        map (fun l => slice_to (other_text l) 1000) other_lectures in
                      match EmbeddingsManager.search embed_text embed_texts
                              similarity lt source_chunk other_contents 5 with
                      | Raise e =>
                          HTTPException 500
                            (String.append "Error finding similar lectures: "
                               (exn_str e))
                      | Ok hits =>
                          Returned (concat (map (similar_for other_lectures) hits))
                      end
                  end
              end
          end
      end
  end.
End Handler.

End SearchRouter.

(* ===================================================================== *)
(** * Part II: the vocabulary of the properties *)
(* ===================================================================== *)

(** ** Tokens and windows *)

Definition no_space (w : str) : Prop := Forall (fun c => is_space c = false) w.

(** What [split] produces: non-empty and free of whitespace. *)
Definition is_token (w : str) : Prop := w <> [] /\ no_space w.

(** The chunker as the specification words it: a window of [size]
    tokens that advances by [stride] tokens per step; the last window
    may be shorter and is kept as long as it is not empty.  [fuel]
    bounds the number of windows. *)
Fixpoint windows_from {A} (fuel : nat) (ws : list A) (size stride : nat)
  : list (list A) :=
  match fuel with
  | O => []
  | S fuel' =>
      match ws with
      | [] => []
      | _ :: _ => firstn size ws :: windows_from fuel' (skipn stride ws) size stride
      end
  end.

Definition sliding_windows {A} (ws : list A) (size stride : nat)
  : list (list A) :=
  windows_from (length ws) ws size stride.

(** ** Rankings *)

Section Rankings.
Context {A K : Type} (lt : K -> K -> bool) (key : A -> K).

(** Non-increasing: no entry has a smaller key than a later one. *)
Definition non_increasing (l : list A) : Prop :=
  StronglySorted (fun a b => lt (key a) (key b) = false) l.

(** [tied k a]: the key of [a] compares equal to [k]. *)
Definition tied (k : K) (a : A) : bool :=
  negb (lt (key a) k) && negb (lt k (key a)).

End Rankings.

Section Scores.
Context {Vec Score : Type}.
Variable embed_text : str -> Vec.
Variable similarity : Vec -> Vec -> Score.

(** The corpus with its scores, in corpus order. *)
Definition scored (query : str) (documents : list str) : list (str * Score) :=
  map (fun doc => (doc, similarity (embed_text query) (embed_text doc))) documents.

End Scores.

(** A small model to run the ranking on: a text is embedded as its
    length and two embeddings are the more similar the closer they are. *)
Module ToyModel.
Definition embed_text (text : str) : Z := Z.of_nat (length text).
Definition embed_texts (texts : list str) : list Z := map embed_text texts.
Definition similarity (a b : Z) : Z := - Z.abs (a - b).
Definition search := EmbeddingsManager.search embed_text embed_texts similarity Z.ltb.
Definition batch_search :=
  EmbeddingsManager.batch_search embed_text embed_texts similarity Z.ltb.
End ToyModel.

(** A loader that always fails, and an encoder that is never reached. *)
Module NoModel.
Definition load_error : exn := Exn "OSError" "model files not found".
Definition SentenceTransformer (model_name : string) : pyresult unit :=
  Raise load_error.
Definition encode (m : unit) (text : str) : pyresult (list float) := Ok [].
Definition encode_many (m : unit) (texts : list str)
  : pyresult (list (list float)) := Ok [].
End NoModel.

(** ** Work items and records *)

Section Executor.
Import TaskManager.

(** A run in which no id is submitted twice: every [Submit] carries an
    id that is not in [tasks_tracking] yet. *)
Definition is_fresh (ev : event) (s : pool) : bool :=
  match ev with
  | Submit task_id _ _ => bool_decide (tasks_tracking s !! task_id = None)
  | _ => true
  end.

Fixpoint run_fresh (evs : list event) (s : pool) : option pool :=
  match evs with
  | [] => Some s
  | ev :: evs' =>
      if is_fresh ev s
      then match step ev s with
           | Some s' => run_fresh evs' s'
           | None => None
           end
      else None
  end.

(** The order of the states: pending, running, then one of the two
    final ones, which are never left. *)
Definition forward (a b : task_state) : bool :=
  match a, b with
  | pending, _ => true
  | running, (running | completed | failed) => true
  | completed, completed => true
  | failed, failed => true
  | _, _ => false
  end.

Definition at_most_one (t : task) : bool :=
  match result t, error t with
  | Some _, Some _ => false
  | _, _ => true
  end.

(** Where a work item is: waiting in the queue, or taken by a thread
    that has reached phase [ph] of [_execute_task]. *)
Inductive position := Queued | Active (ph : phase).

(** All work items of the executor with their positions. *)
Definition jobs (s : pool) : list (job * position) :=
  ((fun j => (j, Queued)) <$> queue s)
  ++ ((fun jp => (fst jp, Active (snd jp))) <$> active s).

Definition ids (jl : list (job * position)) : list string :=
  (fun jp => job_id (fst jp)) <$> jl.

(** The status in which [_execute_task] leaves the record: completed
    from the [try] block, failed from the handler, and the running it
    assigned before the call when neither is reached. *)
Definition final_status (o : outcome) : task_state :=
  match o with
  | Returns _ => completed
  | Raises e => if is_Exception e then failed else running
  | Blocks => running
  end.

(** The record of a task whose work item, of outcome [o], has left the
    executor. *)
Definition finished (o : outcome) (t : task) : Prop :=
  status t = final_status o
  /\ match o with
     | Returns v => result t = v /\ error t = None
     | Raises e =>
         result t = None
         /\ error t = if is_Exception e then Some (exn_str e) else None
     | Blocks => result t = None /\ error t = None
     end.

(** The record of a task whose work item is at position [pos]. *)
Definition fits (o : outcome) (pos : position) (t : task) : Prop :=
  match pos with
  | Queued => status t = pending /\ result t = None /\ error t = None
  | Active Started => status t = running /\ result t = None /\ error t = None
  | Active StatusSet =>
      status t = final_status o /\ result t = None /\ error t = None
  | Active PayloadSet => finished o t
  end.

(** The invariant of runs without resubmission: the work items have
    distinct ids, the record of each fits its position, and every other
    record is that of a finished task. *)
Record Inv_at (reg : gmap string task) (jl : list (job * position)) : Prop := {
  inv_nodup : NoDup (ids jl);
  inv_jobs : forall j pos, (j, pos) ∈ jl ->
             exists t, reg !! job_id j = Some t /\ fits (job_work j) pos t;
  inv_rest : forall id t, reg !! id = Some t -> id ∉ ids jl ->
             exists o, finished o t
}.

Definition Inv (s : pool) : Prop := Inv_at (tasks_tracking s) (jobs s).

(** The task [id] was submitted with a work of outcome [o]: its work
    item is in the executor, or it has left it and the record shows [o]. *)
Definition Tracks (id : string) (o : outcome)
    (reg : gmap string task) (jl : list (job * position)) : Prop :=
  (exists pos, (Job id o, pos) ∈ jl)
  \/ ((id ∉ ids jl) /\ exists t, reg !! id = Some t /\ finished o t).

(** What one event does to the registry and to the work items. *)
Inductive trans (reg : gmap string task) (jl : list (job * position))
  : gmap string task -> list (job * position) -> Prop :=
| trans_submit id w now jl' :
    reg !! id = None ->
    jl' ≡ₚ (Job id w, Queued) :: jl ->
    trans reg jl (<[id := fresh_task now]> reg) jl'
| trans_job j pos rest f next jl' :
    jl ≡ₚ (j, pos) :: rest ->
    jl' ≡ₚ match next with Some pos' => (j, pos') :: rest | None => rest end ->
    (forall t, fits (job_work j) pos t ->
               forward (status t) (status (f t)) = true
               /\ match next with
                  | Some pos' => fits (job_work j) pos' (f t)
                  | None => finished (job_work j) (f t)
                  end) ->
    trans reg jl (alter f (job_id j) reg) jl'
| trans_touch id f :
    (forall t, status (f t) = status t
               /\ result (f t) = result t /\ error (f t) = error t) ->
    trans reg jl (alter f id reg) jl
| trans_none : trans reg jl reg jl.

(** The events of the worker threads. *)
Definition worker_event (ev : event) : Prop :=
  ev = Dispatch \/ exists n, ev = Advance n.

Definition weight (ph : phase) : nat :=
  match ph with Started => 3 | StatusSet => 2 | PayloadSet => 1 end.

(** The number of worker events still to come. *)
Definition work_left (s : pool) : nat :=
  4 * length (queue s) + foldr (fun jp n => weight (snd jp) + n)%nat 0%nat (active s).

(** The record of a task submitted at [now] whose work has run to its
    end without anything else touching it. *)
Definition final_record (w : outcome) (now : Z) : task :=
  match w with
  | Returns v => Task completed now now v None 100
  | Raises e =>
      if is_Exception e
      then Task failed now now None (Some (exn_str e)) 0
      else Task running now now None None 0
  | Blocks => Task running now now None None 0
  end.

(** The worker events of an executor that runs a single work item, and
    what is left of the item when they are over. *)
Definition worker_events (w : outcome) : list event :=
  match after_call w with
  | Continues => [Dispatch; Advance 0; Advance 0; Advance 0]
  | Escapes => [Dispatch; Advance 0]
  | Waits => [Dispatch]
  end.

Definition still_running (task_id : string) (w : outcome) : list (job * phase) :=
  match after_call w with
  | Waits => [(Job task_id w, Started)]
  | _ => []
  end.

(** Every call of a work that the executor holds comes to an end. *)
Definition terminating (s : pool) : Prop :=
  Forall (fun j => job_work j <> Blocks) (queue s)
  /\ Forall (fun jp => job_work (fst jp) <> Blocks) (active s).

Definition progress_in_range (t : task) : Prop := 0 <= progress t <= 100.

(** Every work item of the executor belongs to a record. *)
Definition jobs_registered (s : pool) : Prop :=
  Forall (fun j => is_Some (tasks_tracking s !! job_id j)) (queue s)
  /\ Forall (fun jp => is_Some (tasks_tracking s !! job_id (fst jp))) (active s).

End Executor.

(** ** Lectures and their chunks *)

(** The chunks of a text under the default parameters of [chunk_text],
    500 words with an overlap of 50. *)
Definition default_chunks (text : str) : list str :=
  map (join (txt " ")) (sliding_windows (split text) (Z.to_nat 500) (Z.to_nat 450)).

(** The chunks of a lecture; one without text has none. *)
Definition lecture_chunks (lecture : SearchRouter.Lecture) : list str :=
  match SearchRouter.extracted_text lecture with
  | None => []
  | Some text => default_chunks text
  end.

Definition lecture_metadata (lecture : SearchRouter.Lecture)
  : list SearchRouter.metadata :=
  map (SearchRouter.Metadata (SearchRouter.id lecture) (SearchRouter.title lecture))
      (lecture_chunks lecture).

(* ===================================================================== *)
(** * Part III: properties *)
(* ===================================================================== *)

(** ** Strings: tokens, [split], [join] and [strip] *)

Section Strings.

Example split_runs_of_whitespace :
  split (txt "  lecture  notes
 week 1 ") = [txt "lecture"; txt "notes"; txt "week"; txt "1"].
Proof. reflexivity. Qed.

Example strip_both_ends : strip (txt "  a b  ") = txt "a b".
Proof. reflexivity. Qed.

Example sort_desc_keeps_ties_in_order :
  sort_desc Z.ltb snd [("a", 1); ("b", 3); ("c", 1); ("d", 3); ("e", 2)]
  = [("b", 3); ("d", 3); ("e", 2); ("a", 1); ("c", 1)].
Proof. reflexivity. Qed.

Example slice_negative_bound : slice_to [1; 2; 3; 4] (-1) = [1; 2; 3].
Proof. reflexivity. Qed.

Lemma cons_token_tokens w ws :
  no_space w -> Forall is_token ws -> Forall is_token (cons_token w ws).
Proof.
  intros Hw Hws. destruct w as [|c w]; simpl; [assumption|].
  constructor; [split; [discriminate | assumption] | assumption].
Qed.

Lemma scan_tokens s :
  no_space (fst (scan s)) /\ Forall is_token (snd (scan s)).
Proof.
  induction s as [|c s [IHw IHws]]; simpl.
  - split; constructor.
  - destruct (scan s) as [w ws]; simpl in *.
    destruct (is_space c) eqn:Hc; simpl.
    + split; [constructor | now apply cons_token_tokens].
    + split; [constructor; assumption | assumption].
Qed.

Lemma split_tokens s : Forall is_token (split s).
Proof.
  unfold split. pose proof (scan_tokens s) as [Hw Hws].
  destruct (scan s) as [w ws]. now apply cons_token_tokens.
Qed.

Lemma split_nil : split [] = [].
Proof. reflexivity. Qed.

Lemma scan_no_space w : no_space w -> scan w = (w, []).
Proof.
  induction 1 as [|c w Hc _ IH]; simpl; [reflexivity|].
  now rewrite IH, Hc.
Qed.

Lemma scan_token_space w rest :
  no_space w -> scan (w ++ " "%char :: rest) = (w, split rest).
Proof.
  induction 1 as [|c w Hc _ IH]; simpl.
  - unfold split. now destruct (scan rest).
  - now rewrite IH, Hc.
Qed.

(** Splitting a string of tokens joined by single spaces gives the
    tokens back. *)
Lemma split_join ws :
  Forall is_token ws -> split (join (txt " ") ws) = ws.
Proof.
  induction 1 as [|w ws [Hne Hw] Hws IH]; [reflexivity|].
  simpl. destruct ws as [|w' ws'].
  - unfold split. rewrite scan_no_space by assumption.
    destruct w; [contradiction | reflexivity].
  - change (txt " " ++ join (txt " ") (w' :: ws'))
      with (" "%char :: join (txt " ") (w' :: ws')).
    unfold split at 1. rewrite scan_token_space by assumption.
    change [" "%char] with (txt " ").
    rewrite IH. destruct w; [contradiction | reflexivity].
Qed.

Lemma lstrip_keeps c s :
  In c s -> is_space c = false -> In c (lstrip s).
Proof.
  intros Hin Hc. induction s as [|d s IH]; simpl; [contradiction|].
  destruct (is_space d) eqn:Hd; [|assumption].
  destruct Hin as [->|Hin]; [congruence | auto].
Qed.

Lemma strip_keeps c s :
  In c s -> is_space c = false -> In c (strip s).
Proof.
  intros Hin Hc. unfold strip, rstrip.
  apply in_rev. rewrite rev_involutive.
  apply lstrip_keeps; [|assumption].
  apply -> in_rev. now apply lstrip_keeps.
Qed.

Lemma join_head_in sep c w ws : In c w -> In c (join sep (w :: ws)).
Proof.
  intros Hin. simpl. destruct ws; [assumption|].
  apply in_or_app. now left.
Qed.

(** A chunk made of at least one token passes the [chunk.strip()] test. *)
Lemma truthy_strip_join ws :
  ws <> [] -> Forall is_token ws -> truthy (strip (join (txt " ") ws)) = true.
Proof.
  intros Hne Hws. destruct ws as [|w ws]; [contradiction|].
  inversion Hws as [|? ? [Hw Hns] _]; subst.
  destruct w as [|c w]; [contradiction|].
  inversion Hns as [|? ? Hc _]; subst.
  assert (Hin : In c (strip (join (txt " ") ((c :: w) :: ws)))).
  { apply strip_keeps; [|assumption]. apply join_head_in. now left. }
  destruct (strip _); [contradiction | reflexivity].
Qed.

Lemma truthy_true s : truthy s = true <-> s <> [].
Proof. destruct s; simpl; split; congruence. Qed.

End Strings.

(** ** Slices, ranges and windows *)

Section Slices.
Context {A : Type}.
Implicit Types l : list A.

Lemma firstn_min_length n l : firstn (Nat.min n (length l)) l = firstn n l.
Proof.
  destruct (Nat.le_ge_cases n (length l)) as [H|H].
  - now rewrite Nat.min_l.
  - rewrite Nat.min_r by assumption.
    now rewrite !firstn_all2 by lia.
Qed.

(** [l[i:i + size]] for a start [i >= 0] and a positive [size]: the
    first [size] elements from position [i] on. *)
Lemma slice_window l (i size : Z) :
  0 <= i -> 0 < size ->
  slice l i (i + size) = firstn (Z.to_nat size) (skipn (Z.to_nat i) l).
Proof.
  intros Hi Hsize. unfold slice, clamp_index.
  destruct (Z.ltb_spec i 0); [lia|].
  destruct (Z.ltb_spec (i + size) 0); [lia|].
  rewrite <- (firstn_min_length (Z.to_nat size)).
  rewrite length_skipn.
  destruct (Z.le_gt_cases (Z.of_nat (length l)) i) as [Hge|Hlt].
  - rewrite (Z.min_r i) by lia. rewrite Nat2Z.id.
    rewrite (skipn_all2 (n := Z.to_nat i)) by lia.
    rewrite skipn_all. now rewrite !firstn_nil.
  - rewrite (Z.min_l i) by lia. f_equal. lia.
Qed.

Lemma slice_length_le l (i size : Z) :
  0 <= i -> 0 < size -> (length (slice l i (i + size)) <= Z.to_nat size)%nat.
Proof.
  intros Hi Hsize. rewrite slice_window by assumption.
  rewrite length_firstn. lia.
Qed.

(** [l[:k]] for [k >= 0] is the first [k] elements. *)
Lemma slice_to_firstn l (k : Z) :
  0 <= k -> slice_to l k = firstn (Z.to_nat k) l.
Proof.
  intros Hk. unfold slice_to.
  replace k with (0 + k) at 1 by lia.
  destruct (Z.eq_dec k 0) as [->|Hne].
  - unfold slice. cbv zeta. rewrite Z.add_0_l, Z.sub_diag. reflexivity.
  - now rewrite slice_window by lia.
Qed.

(** [l[:len(l)]] is the whole list. *)
Lemma slice_to_length l : slice_to l (Z.of_nat (length l)) = l.
Proof.
  rewrite slice_to_firstn by lia. rewrite Nat2Z.id. apply firstn_all.
Qed.

Lemma range_len_step (n step : Z) :
  0 < step -> 0 < n ->
  range_len 0 n step = S (range_len 0 (n - step) step).
Proof.
  intros Hstep Hn. unfold range_len.
  destruct (Z.ltb_spec 0 step); [|lia].
  destruct (Z.ltb_spec 0 n); [|lia].
  destruct (Z.ltb_spec 0 (n - step)).
  - replace (n - 0 - 1) with ((n - step - 0 - 1) + 1 * step) by lia.
    rewrite Z.div_add by lia.
    assert (0 <= (n - step - 0 - 1) / step) by (apply Z.div_pos; lia).
    lia.
  - rewrite Z.div_small by lia. reflexivity.
Qed.

Lemma range_len_nonpos (n step : Z) :
  0 < step -> n <= 0 -> range_len 0 n step = 0%nat.
Proof.
  intros Hstep Hn. unfold range_len.
  destruct (Z.ltb_spec 0 step); [|lia].
  destruct (Z.ltb_spec 0 n); [lia | reflexivity].
Qed.

(** The windows of the specification are the slices the loops take:
    one for every index of [range(0, len(l), stride)]. *)
Lemma windows_from_slices fuel l (size stride : Z) :
  0 < size -> 0 < stride -> (length l <= fuel)%nat ->
  windows_from fuel l (Z.to_nat size) (Z.to_nat stride) =
  map (fun i => slice l i (i + size))
      (map (fun j => 0 + Z.of_nat j * stride)
           (seq 0 (range_len 0 (Z.of_nat (length l)) stride))).
Proof.
  intros Hsize Hstride. revert l.
  induction fuel as [|fuel IH]; intros l Hfuel.
  - destruct l; [|simpl in Hfuel; lia].
    rewrite range_len_nonpos by (simpl; lia). reflexivity.
  - destruct l as [|x l].
    { rewrite range_len_nonpos by (simpl; lia). reflexivity. }
    cbn [windows_from].
    rewrite range_len_step by (simpl length; lia).
    cbn [seq map]. f_equal.
    + rewrite slice_window by lia. reflexivity.
    + rewrite IH by (rewrite length_skipn; simpl in *; lia).
      rewrite <- seq_shift, !map_map.
      rewrite length_skipn.
      replace (Z.of_nat (length (x :: l) - Z.to_nat stride))
        with (Z.max 0 (Z.of_nat (length (x :: l)) - stride)) by lia.
      assert (Hlen : range_len 0 (Z.max 0 (Z.of_nat (length (x :: l)) - stride)) stride
                     = range_len 0 (Z.of_nat (length (x :: l)) - stride) stride).
      { destruct (Z.le_gt_cases (Z.of_nat (length (x :: l)) - stride) 0).
        - rewrite !range_len_nonpos by lia. reflexivity.
        - now rewrite Z.max_r by lia. }
      rewrite Hlen. apply map_ext. intros j.
      rewrite !slice_window by lia.
      rewrite skipn_skipn. do 2 f_equal. lia.
Qed.

Lemma sliding_windows_slices l (size stride : Z) :
  0 < size -> 0 < stride ->
  sliding_windows l (Z.to_nat size) (Z.to_nat stride) =
  map (fun i => slice l i (i + size))
      (map (fun j => 0 + Z.of_nat j * stride)
           (seq 0 (range_len 0 (Z.of_nat (length l)) stride))).
Proof.
  intros. unfold sliding_windows.
  now apply windows_from_slices.
Qed.

(** Windows that advance by their own size cut the list into
    consecutive groups. *)
Lemma windows_from_concat fuel l (n : nat) :
  (0 < n)%nat -> (length l <= fuel)%nat ->
  concat (windows_from fuel l n n) = l.
Proof.
  intros Hn. revert l. induction fuel as [|fuel IH]; intros l Hfuel.
  - destruct l; [reflexivity | simpl in Hfuel; lia].
  - destruct l as [|x l]; [reflexivity|].
    cbn [windows_from concat].
    rewrite IH by (rewrite length_skipn; simpl in *; lia).
    apply firstn_skipn.
Qed.

Lemma windows_from_nonempty fuel l (size stride : nat) :
  (0 < size)%nat -> Forall (fun w => w <> []) (windows_from fuel l size stride).
Proof.
  intros Hsize. revert l. induction fuel as [|fuel IH]; intros l; [constructor|].
  destruct l as [|x l]; [constructor|].
  cbn [windows_from]. constructor; [|apply IH].
  destruct size; [lia | discriminate].
Qed.

Lemma windows_from_sublists fuel l (size stride : nat) (P : A -> Prop) :
  Forall P l -> Forall (Forall P) (windows_from fuel l size stride).
Proof.
  revert l. induction fuel as [|fuel IH]; intros l Hl; [constructor|].
  destruct l as [|x l]; [constructor|].
  cbn [windows_from]. constructor.
  - now apply Forall_take.
  - apply IH. now apply Forall_drop.
Qed.

Lemma windows_from_size fuel l (size stride : nat) :
  Forall (fun w => (length w <= size)%nat) (windows_from fuel l size stride).
Proof.
  revert l. induction fuel as [|fuel IH]; intros l; [constructor|].
  destruct l as [|x l]; [constructor|].
  cbn [windows_from]. constructor; [|apply IH].
  rewrite length_firstn. lia.
Qed.

End Slices.

(** ** The chunker *)

Section Chunker.
Import OCRProcessor.

Lemma filter_all {A} (p : A -> bool) (l : list A) :
  Forall (fun x => p x = true) l -> List.filter p l = l.
Proof.
  induction 1 as [|x l Hx _ IH]; simpl; [reflexivity|].
  now rewrite Hx, IH.
Qed.

(** The loop appends, in order, the chunks that pass the test. *)
Lemma chunk_loop words chunk_size idxs chunks :
  fold_left (chunk_step words chunk_size) idxs chunks =
  chunks ++ List.filter (fun chunk => truthy (strip chunk))
              (map (fun i => join (txt " ") (slice words i (i + chunk_size))) idxs).
Proof.
  revert chunks. induction idxs as [|i idxs IH]; intros chunks; simpl.
  - now rewrite app_nil_r.
  - rewrite IH. unfold chunk_step.
    destruct (truthy _); [now rewrite <- app_assoc | reflexivity].
Qed.

Lemma chunk_text_ok text chunk_size overlap :
  chunk_size - overlap <> 0 ->
  chunk_text text chunk_size overlap =
  Ok (List.filter (fun chunk => truthy (strip chunk))
        (map (fun i => join (txt " ") (slice (split text) i (i + chunk_size)))
           (map (fun j => 0 + Z.of_nat j * (chunk_size - overlap))
              (seq 0 (range_len 0 (Z.of_nat (length (split text)))
                        (chunk_size - overlap)))))).
Proof.
  intros Hstep. unfold chunk_text, range.
  destruct (Z.eqb_spec (chunk_size - overlap) 0); [contradiction|].
  cbn [bind]. now rewrite chunk_loop.
Qed.

(** With valid parameters no window is dropped by the test. *)
Lemma chunk_text_valid text chunk_size overlap :
  0 < chunk_size -> overlap < chunk_size ->
  chunk_text text chunk_size overlap =
  Ok (map (join (txt " "))
        (sliding_windows (split text) (Z.to_nat chunk_size)
           (Z.to_nat (chunk_size - overlap)))).
Proof.
  intros Hsize Hov. rewrite chunk_text_ok by lia. f_equal.
  rewrite <- (map_map (fun i => slice (split text) i (i + chunk_size))
                      (join (txt " "))).
  rewrite <- sliding_windows_slices by lia.
  apply filter_all. apply Forall_map.
  unfold sliding_windows.
  pose proof (windows_from_nonempty (length (split text)) (split text)
                (Z.to_nat chunk_size) (Z.to_nat (chunk_size - overlap))
                ltac:(lia)) as Hne.
  pose proof (windows_from_sublists (length (split text)) (split text)
                (Z.to_nat chunk_size) (Z.to_nat (chunk_size - overlap))
                is_token (split_tokens text)) as Htok.
  induction Hne as [|w ws Hw _ IH]; [constructor|].
  inversion Htok; subst. constructor; [|now apply IH].
  now apply truthy_strip_join.
Qed.

(** Position by position: window [j] starts at token [j * stride] and
    exists as long as that position is inside the list. *)
Lemma windows_from_nth {A} fuel (l : list A) (size stride j : nat) :
  (0 < stride)%nat -> (length l <= fuel)%nat ->
  nth_error (windows_from fuel l size stride) j =
  if (j * stride <? length l)%nat
  then Some (firstn size (skipn (j * stride) l))
  else None.
Proof.
  intros Hstride. revert l j.
  induction fuel as [|fuel IH]; intros l j Hfuel.
  - destruct l; [|simpl in Hfuel; lia].
    destruct (Nat.ltb_spec (j * stride) (length (@nil A))); [simpl in *; lia|].
    now destruct j.
  - destruct l as [|x l].
    { destruct (Nat.ltb_spec (j * stride) (length (@nil A))); [simpl in *; lia|].
      now destruct j. }
    cbn [windows_from]. destruct j as [|j]; [reflexivity|].
    cbn [nth_error].
    rewrite IH by (rewrite length_skipn; simpl in *; lia).
    rewrite length_skipn, skipn_skipn.
    replace (j * stride + stride)%nat with (S j * stride)%nat by lia.
    destruct (Nat.ltb_spec (j * stride) (length (x :: l) - stride)),
             (Nat.ltb_spec (S j * stride) (length (x :: l))); try lia; reflexivity.
Qed.

End Chunker.

Section ChunkerClaims.
Import OCRProcessor.

(** C8. For every text and valid parameters ([chunk_size > 0],
    [overlap < chunk_size]) [chunk_text] succeeds and returns the
    sliding windows of the whitespace tokens, joined by single spaces:
    window [j] holds the (at most) [chunk_size] tokens from position
    [j * (chunk_size - overlap)] on and exists exactly while that
    position is inside the token list, so the last, shorter window is
    kept.  The empty text gives the empty list, and
    [chunk_text("a b c d e f", 3, 1) = ["a b c", "c d e", "e f"]]. *)
Theorem chunk_text_sliding_windows (text : str) (chunk_size overlap : Z) :
  0 < chunk_size -> overlap < chunk_size ->
  let words := split text in
  let size := Z.to_nat chunk_size in
  let stride := Z.to_nat (chunk_size - overlap) in
  (exists chunks,
      chunk_text text chunk_size overlap = Ok chunks
      /\ chunks = map (join (txt " ")) (sliding_windows words size stride)
      /\ forall j : nat,
          nth_error chunks j =
          if (j * stride <? length words)%nat
          then Some (join (txt " ") (firstn size (skipn (j * stride) words)))
          else None)
  /\ chunk_text [] chunk_size overlap = Ok []
  /\ chunk_text (txt "a b c d e f") 3 1
     = Ok [txt "a b c"; txt "c d e"; txt "e f"].
Proof.
  intros Hsize Hov words size stride. split; [|split].
  - eexists. split; [now apply chunk_text_valid|]. split; [reflexivity|].
    intros j. rewrite nth_error_map. unfold sliding_windows.
    rewrite windows_from_nth by (subst stride; lia).
    fold words size stride.
    now destruct (j * stride <? length words)%nat.
  - now rewrite chunk_text_valid.
  - reflexivity.
Qed.

Lemma chunk_text_sliding_windows_witness :
  exists chunks,
    chunk_text (txt "to be or not to") 2 0 = Ok chunks
    /\ nth_error chunks 2 = Some (txt "to").
Proof.
  destruct (chunk_text_sliding_windows (txt "to be or not to") 2 0)
    as [(chunks & Hrun & _ & Hnth) _]; [lia | lia |].
  exists chunks. split; [exact Hrun|]. exact (Hnth 2%nat).
Defined.

(** C10. For every text and valid parameters, [chunk_text] succeeds
    and every chunk it returns is non-empty after [strip()] and splits
    into at most [chunk_size] whitespace-delimited tokens. *)
Theorem chunk_text_chunks_wellformed (text : str) (chunk_size overlap : Z) :
  0 < chunk_size -> overlap < chunk_size ->
  exists chunks,
    chunk_text text chunk_size overlap = Ok chunks
    /\ Forall (fun chunk =>
                 strip chunk <> []
                 /\ Z.of_nat (length (split chunk)) <= chunk_size) chunks.
Proof.
  intros Hsize Hov. eexists. split; [now apply chunk_text_valid|].
  apply Forall_map. unfold sliding_windows.
  set (ws := windows_from _ _ _ _).
  assert (Hne : Forall (fun w => w <> []) ws)
    by (apply windows_from_nonempty; lia).
  assert (Htok : Forall (Forall is_token) ws)
    by (apply windows_from_sublists, split_tokens).
  assert (Hlen : Forall (fun w => (length w <= Z.to_nat chunk_size)%nat) ws)
    by apply windows_from_size.
  rewrite Forall_forall in *. intros w Hin. split.
  - apply truthy_true. apply truthy_strip_join; auto.
  - rewrite split_join by auto. specialize (Hlen w Hin). lia.
Qed.

Lemma chunk_text_chunks_wellformed_witness :
  exists chunks,
    chunk_text (txt "one two  three four five") 2 1 = Ok chunks
    /\ Forall (fun chunk =>
                 strip chunk <> []
                 /\ Z.of_nat (length (split chunk)) <= 2) chunks.
Proof.
  apply (chunk_text_chunks_wellformed (txt "one two  three four five") 2 1); lia.
Defined.

(** C2, as claimed, fails: an overlap larger than the chunk size gives
    a negative step, over which [range] is empty, and a chunk size
    below one is not looked at. *)
Lemma chunk_text_bad_parameters_accepted :
  (5 >= 3 \/ 3 <= 0)
  /\ chunk_text (txt "a b c d") 3 5 = Ok []
  /\ (-3 >= -1 \/ -1 <= 0)
  /\ chunk_text (txt "a b c d") (-1) (-3) = Ok [txt "a b c"].
Proof. repeat split; (reflexivity || lia). Qed.

(** C2, amended. [chunk_text] raises exactly when [overlap] equals
    [chunk_size] (the [ValueError] of [range] for a zero step); for a
    larger overlap it returns the empty list. *)
Theorem chunk_text_raises_iff (text : str) (chunk_size overlap : Z) :
  (chunk_text text chunk_size overlap
   = Raise (ValueError "range() arg 3 must not be zero")
   <-> overlap = chunk_size)
  /\ (raises (chunk_text text chunk_size overlap) = true
      <-> overlap = chunk_size)
  /\ (chunk_size < overlap -> chunk_text text chunk_size overlap = Ok []).
Proof.
  destruct (Z.eq_dec (chunk_size - overlap) 0) as [Hz|Hnz].
  - assert (Hr : chunk_text text chunk_size overlap
                 = Raise (ValueError "range() arg 3 must not be zero")).
    { unfold chunk_text, range. now rewrite Hz. }
    rewrite Hr. simpl. repeat split; intros; (lia || reflexivity).
  - rewrite chunk_text_ok by assumption. simpl.
    repeat split; try (intros; (lia || discriminate)).
    intros Hneg. unfold range_len.
    destruct (Z.ltb_spec 0 (chunk_size - overlap)); [lia|].
    destruct (Z.ltb_spec (Z.of_nat (length (split text))) 0); [lia|].
    reflexivity.
Qed.

Lemma chunk_text_raises_iff_witness :
  3 < 5 /\ chunk_text (txt "a b c d") 3 5 = Ok [].
Proof.
  split; [lia|].
  apply (chunk_text_raises_iff (txt "a b c d") 3 5). lia.
Defined.

End ChunkerClaims.

(** ** The stable descending sort *)

Section StableSort.
Context {A K : Type} (lt : K -> K -> bool) (key : A -> K).

(** [<] on the keys is a strict order ... *)
Hypothesis lt_irrefl : forall x, lt x x = false.
Hypothesis lt_trans :
  forall x y z, lt x y = true -> lt y z = true -> lt x z = true.

Local Abbreviation insert := (insert_desc lt key).
Local Abbreviation sort := (sort_desc lt key).
Local Abbreviation non_increasing := (non_increasing lt key).
Local Abbreviation tied := (tied lt key).

Lemma lt_asym x y : lt x y = true -> lt y x = false.
Proof.
  intros Hxy. destruct (lt y x) eqn:Hyx; [|reflexivity].
  pose proof (lt_trans _ _ _ Hxy Hyx) as Hxx.
  now rewrite lt_irrefl in Hxx.
Qed.

(** Two insertions of entries with different keys commute. *)
Lemma insert_desc_comm x y l :
  lt (key x) (key y) = true ->
  insert x (insert y l) = insert y (insert x l).
Proof.
  intros Hxy. induction l as [|z l IH]; simpl.
  - now rewrite Hxy, (lt_asym _ _ Hxy).
  - destruct (lt (key y) (key z)) eqn:Hyz.
    + rewrite (lt_trans _ _ _ Hxy Hyz). simpl.
      rewrite (lt_trans _ _ _ Hxy Hyz), Hyz. now rewrite IH.
    + simpl. rewrite Hxy.
      destruct (lt (key x) (key z)) eqn:Hxz; simpl.
      * now rewrite Hyz.
      * now rewrite (lt_asym _ _ Hxy).
Qed.

(** Inserting first or last into a list that is being sorted onto [base]
    makes no difference: the entry inserted by [insert x] is the oldest. *)
Lemma fold_insert_insert x l base :
  fold_right insert base (insert x l) = insert x (fold_right insert base l).
Proof.
  induction l as [|y l IH]; simpl; [reflexivity|].
  destruct (lt (key x) (key y)) eqn:Hxy; simpl; [|reflexivity].
  rewrite IH. symmetry. now apply insert_desc_comm.
Qed.

Lemma fold_insert_sort l base :
  fold_right insert base (sort l) = fold_right insert base l.
Proof.
  induction l as [|x l IH]; simpl; [reflexivity|].
  now rewrite fold_insert_insert, IH.
Qed.

Lemma sort_desc_app l1 l2 :
  sort (l1 ++ l2) = fold_right insert (sort l2) l1.
Proof. unfold sort_desc. apply fold_right_app. Qed.

Lemma sort_desc_idem l : sort (sort l) = sort l.
Proof. unfold sort_desc at 1. apply fold_insert_sort. Qed.

(** Sorting the groups first does not change the global order. *)
Lemma sort_desc_concat_sorted (groups : list (list A)) :
  sort (concat (map sort groups)) = sort (concat groups).
Proof.
  induction groups as [|g groups IH]; simpl; [reflexivity|].
  now rewrite !sort_desc_app, IH, fold_insert_sort.
Qed.

Lemma insert_desc_length x l : length (insert x l) = S (length l).
Proof.
  induction l as [|y l IH]; simpl; [reflexivity|].
  destruct (lt _ _); simpl; now rewrite ?IH.
Qed.

Lemma sort_desc_length l : length (sort l) = length l.
Proof.
  induction l as [|x l IH]; simpl; [reflexivity|].
  now rewrite insert_desc_length, IH.
Qed.

Lemma insert_desc_perm x l : Permutation (insert x l) (x :: l).
Proof.
  induction l as [|y l IH]; simpl; [reflexivity|].
  destruct (lt _ _); [|reflexivity].
  rewrite IH. apply perm_swap.
Qed.

Lemma sort_desc_perm l : Permutation (sort l) l.
Proof.
  induction l as [|x l IH]; simpl; [reflexivity|].
  now rewrite insert_desc_perm, IH.
Qed.

(** ... in which being incomparable is transitive, as for [<] on numbers. *)
Hypothesis lt_weak :
  forall x y z, lt x z = true -> lt x y = true \/ lt y z = true.

Lemma not_lt_trans x y z : lt x y = false -> lt y z = false -> lt x z = false.
Proof.
  intros Hxy Hyz. destruct (lt x z) eqn:Hxz; [|reflexivity].
  destruct (lt_weak _ y _ Hxz); congruence.
Qed.

Lemma insert_desc_sorted x l :
  non_increasing l -> non_increasing (insert x l).
Proof.
  unfold non_increasing. induction 1 as [|y l Hl IH Hy]; simpl.
  - repeat constructor.
  - destruct (lt (key x) (key y)) eqn:Hxy.
    + constructor; [assumption|].
      rewrite insert_desc_perm. constructor; [|assumption].
      now apply lt_asym.
    + constructor; [now constructor|].
      constructor; [assumption|].
      eapply Forall_impl; [exact Hy|].
      intros z Hyz. simpl in Hyz. now apply (not_lt_trans _ (key y)).
Qed.

Lemma sort_desc_sorted l : non_increasing (sort l).
Proof.
  induction l as [|x l IH]; simpl; [constructor|].
  now apply insert_desc_sorted.
Qed.

Lemma insert_desc_tied k x l :
  List.filter (tied k) (insert x l) = List.filter (tied k) (x :: l).
Proof.
  induction l as [|y l IH]; [reflexivity|].
  cbn [insert_desc]. destruct (lt (key x) (key y)) eqn:Hxy; [|reflexivity].
  cbn [List.filter] in *. rewrite IH.
  destruct (tied k x) eqn:Hx, (tied k y) eqn:Hy; try reflexivity.
  exfalso. unfold tied in Hx, Hy.
  apply andb_prop in Hx as [Hx1 Hx2]. apply andb_prop in Hy as [Hy1 Hy2].
  apply negb_true_iff in Hx1, Hx2, Hy1, Hy2.
  destruct (lt_weak _ k _ Hxy); congruence.
Qed.

(** Stability: the entries with one key come out in their input order. *)
Lemma sort_desc_stable k l :
  List.filter (tied k) (sort l) = List.filter (tied k) l.
Proof.
  induction l as [|x l IH]; [reflexivity|].
  cbn [sort_desc fold_right]. fold (sort l).
  rewrite insert_desc_tied. cbn [List.filter]. now rewrite IH.
Qed.

Lemma non_increasing_firstn n l : non_increasing l -> non_increasing (firstn n l).
Proof.
  unfold non_increasing. revert l. induction n as [|n IH]; intros l Hl.
  - constructor.
  - destruct l as [|x l]; [constructor|].
    inversion Hl; subst. simpl. constructor; [now apply IH|].
    now apply Forall_take.
Qed.

End StableSort.

(** ** Ranking: [search] and [batch_search] *)

Section Ranking.
Import EmbeddingsManager.
Context {Vec Score : Type}.
Variable embed_text : str -> Vec.
Variable embed_texts : list str -> list Vec.
Variable similarity : Vec -> Vec -> Score.
Variable lt : Score -> Score -> bool.

(** The embedding is deterministic: a text gets the same vector alone
    or in any batch, and a batch is embedded in order, one to one. *)
Hypothesis embed_texts_each :
  forall texts, embed_texts texts = map embed_text texts.

(** The scores are ordered by [<] as numbers are: it is a strict
    order, and scores that compare equal to neither side of a strict
    comparison do not exist (a strict weak order; no score is NaN).
    On such scores every stable sort returns the list of [sort_desc],
    so that [sort_desc] is what Python's sort computes. *)
Hypothesis lt_irrefl : forall x, lt x x = false.
Hypothesis lt_trans :
  forall x y z, lt x y = true -> lt y z = true -> lt x z = true.
Hypothesis lt_weak :
  forall x y z, lt x z = true -> lt x y = true \/ lt y z = true.

Local Abbreviation search := (search embed_text embed_texts similarity lt).
Local Abbreviation batch_search := (batch_search embed_text embed_texts similarity lt).
Local Abbreviation batch_step := (batch_step embed_text embed_texts similarity lt).
Local Abbreviation sort := (sort_desc lt (@snd str Score)).
Local Abbreviation scored := (scored embed_text similarity).

Lemma score_all_scored query documents :
  score_all similarity (embed_text query) documents (embed_texts documents)
  = scored query documents.
Proof.
  rewrite embed_texts_each. unfold score_all, scored.
  induction documents as [|doc documents IH]; simpl; [reflexivity|].
  now rewrite IH.
Qed.

Lemma search_eq query documents top_k :
  search query documents top_k
  = Ok (slice_to (sort (scored query documents)) top_k).
Proof. unfold EmbeddingsManager.search. now rewrite score_all_scored. Qed.

Lemma scored_length query documents :
  length (scored query documents) = length documents.
Proof. apply length_map. Qed.

(** Asked for as many results as there are documents, [search] returns
    the whole ranking. *)
Lemma search_all query batch :
  search query batch (Z.of_nat (length batch)) = Ok (sort (scored query batch)).
Proof.
  rewrite search_eq. f_equal.
  rewrite <- (scored_length query batch).
  rewrite <- (sort_desc_length lt snd (scored query batch)).
  apply slice_to_length.
Qed.

Lemma batch_step_ok query documents chunk_size acc i :
  batch_step query documents chunk_size (Ok acc) i
  = Ok (acc ++ sort (scored query (slice documents i (i + chunk_size)))).
Proof.
  unfold EmbeddingsManager.batch_step. cbn [bind]. now rewrite search_all.
Qed.

Lemma batch_loop query documents chunk_size idxs acc :
  fold_left (batch_step query documents chunk_size) idxs (Ok acc)
  = Ok (acc ++ concat (map (fun i => sort (scored query
                                       (slice documents i (i + chunk_size))))
                         idxs)).
Proof.
  revert acc. induction idxs as [|i idxs IH]; intros acc;
    cbn [fold_left map concat].
  - now rewrite app_nil_r.
  - rewrite batch_step_ok, IH. now rewrite <- app_assoc.
Qed.

Lemma scored_concat query (groups : list (list str)) :
  concat (map (scored query) groups) = scored query (concat groups).
Proof. unfold scored. now rewrite concat_map. Qed.

(** C1. For every query, corpus, batch size [chunk_size > 0] and
    [top_k], [batch_search] returns exactly what [search] returns on the
    whole corpus: the same (document, score) pairs in the same order,
    given a deterministic embedding ([embed_texts_each]) and the stable
    sort on scores that [<] orders as a strict weak order ([lt_irrefl],
    [lt_trans], [lt_weak]). *)
Theorem batch_search_eq_search (query : str) (documents : list str)
    (chunk_size top_k : Z) :
  0 < chunk_size ->
  batch_search query documents chunk_size top_k
  = search query documents top_k.
Proof using embed_texts_each lt_irrefl lt_trans lt_weak.
  intros Hsize. rewrite search_eq.
  unfold EmbeddingsManager.batch_search, range.
  destruct (Z.eqb_spec chunk_size 0); [lia|].
  cbn [bind]. rewrite batch_loop. cbn [bind app]. do 2 f_equal.
  rewrite <- (map_map (fun i => slice documents i (i + chunk_size))
                      (fun batch => sort (scored query batch))).
  rewrite <- sliding_windows_slices by assumption.
  rewrite <- (map_map (scored query) sort).
  rewrite sort_desc_concat_sorted by assumption.
  rewrite scored_concat. unfold sliding_windows.
  now rewrite windows_from_concat by lia.
Qed.

(** C6, amended. For every query, corpus and [top_k >= 0], [search]
    succeeds and returns the first [top_k] entries of the ranking of the
    whole corpus: at most [min(top_k, len(documents))] entries, sorted
    non-increasing by score, entries with equal scores in corpus order;
    for [top_k >= len(documents)] it is the whole ranking. *)
Theorem search_ranked (query : str) (documents : list str) (top_k : Z) :
  0 <= top_k ->
  exists results ranking,
    search query documents top_k = Ok results
    /\ results = firstn (Z.to_nat top_k) ranking
    /\ Permutation ranking (scored query documents)
    /\ non_increasing lt snd ranking
    /\ (forall s, List.filter (tied lt snd s) ranking
                  = List.filter (tied lt snd s) (scored query documents))
    /\ Z.of_nat (length results) <= Z.min top_k (Z.of_nat (length documents))
    /\ non_increasing lt snd results
    /\ (Z.of_nat (length documents) <= top_k -> results = ranking).
Proof.
  intros Hk. exists (firstn (Z.to_nat top_k) (sort (scored query documents))).
  exists (sort (scored query documents)).
  split; [|split; [|split; [|split; [|split; [|split; [|split]]]]]].
  - rewrite search_eq. now rewrite slice_to_firstn.
  - reflexivity.
  - apply sort_desc_perm.
  - now apply sort_desc_sorted.
  - intros s. now apply sort_desc_stable.
  - rewrite length_firstn, sort_desc_length, scored_length. lia.
  - apply non_increasing_firstn. now apply sort_desc_sorted.
  - intros Hall. apply firstn_all2.
    rewrite sort_desc_length, scored_length. lia.
Qed.

End Ranking.

Lemma Zltb_trans x y z : (x <? y) = true -> (y <? z) = true -> (x <? z) = true.
Proof. rewrite !Z.ltb_lt. lia. Qed.

Lemma Zltb_weak x y z : (x <? z) = true -> (x <? y) = true \/ (y <? z) = true.
Proof. rewrite !Z.ltb_lt. lia. Qed.

Lemma batch_search_eq_search_witness :
  ToyModel.batch_search (txt "pets")
    [txt "cats"; txt "rockets fly"; txt "dogs"; txt "a"; txt "mammals"] 2 3
  = ToyModel.search (txt "pets")
    [txt "cats"; txt "rockets fly"; txt "dogs"; txt "a"; txt "mammals"] 3.
Proof.
  apply (batch_search_eq_search ToyModel.embed_text ToyModel.embed_texts
           ToyModel.similarity Z.ltb).
  - reflexivity.
  - apply Z.ltb_irrefl.
  - apply Zltb_trans.
  - apply Zltb_weak.
  - lia.
Defined.

Lemma search_ranked_witness :
  exists results,
    ToyModel.search (txt "pets") [txt "cats"; txt "rockets fly"; txt "dogs"] 2
    = Ok results
    /\ Z.of_nat (length results) <= Z.min 2 3.
Proof.
  destruct (search_ranked ToyModel.embed_text ToyModel.embed_texts
              ToyModel.similarity Z.ltb (fun _ => eq_refl) Z.ltb_irrefl
              Zltb_trans Zltb_weak (txt "pets")
              [txt "cats"; txt "rockets fly"; txt "dogs"] 2)
    as (results & ranking & Hrun & _ & _ & _ & _ & Hlen & _); [lia|].
  exists results. split; [exact Hrun | exact Hlen].
Defined.

(** C6, as claimed, fails for a negative [top_k]: the slice
    [similarities[:-1]] drops the last entry and keeps the others. *)
Lemma search_negative_top_k :
  ToyModel.search (txt "pets") [txt "cats"; txt "rockets fly"; txt "dogs"] (-1)
  = Ok [(txt "cats", 0); (txt "dogs", 0)]
  /\ ~ (Z.of_nat (length [(txt "cats", 0); (txt "dogs", 0)]) <= Z.min (-1) 3).
Proof. split; [reflexivity | simpl; lia]. Qed.

(** ** Cosine similarity *)

Section Cosine.
Local Open Scope float_scope.

Lemma np_dot_same_length (a b : list float) :
  length a = length b -> exists d, np_dot a b = Ok d.
Proof.
  intros Hlen. unfold np_dot. rewrite Hlen, Nat.eqb_refl. now eexists.
Qed.

(** The method of [EmbeddingsManager] has the guard: on two vectors of
    one dimension it returns [0.0] as soon as one norm is zero. *)
Lemma cosine_similarity_zero_norm (vec1 vec2 : list float) :
  length vec1 = length vec2 ->
  (np_norm vec1 =? 0) = true \/ (np_norm vec2 =? 0) = true ->
  EmbeddingsManager.cosine_similarity vec1 vec2 = Ok 0.
Proof.
  intros Hlen Hzero. unfold EmbeddingsManager.cosine_similarity.
  destruct (np_dot_same_length vec1 vec2 Hlen) as [d ->]. cbn [bind].
  destruct Hzero as [-> | ->]; [reflexivity|].
  now rewrite orb_true_r.
Qed.

(** On vectors of one dimension the method does not raise. *)
Lemma cosine_similarity_total (vec1 vec2 : list float) :
  length vec1 = length vec2 ->
  exists s, EmbeddingsManager.cosine_similarity vec1 vec2 = Ok s.
Proof.
  intros Hlen. unfold EmbeddingsManager.cosine_similarity.
  destruct (np_dot_same_length vec1 vec2 Hlen) as [d ->]. cbn [bind].
  destruct (_ || _); now eexists.
Qed.

(** C5 at the zero vector.  The norm of [[0.0]] is zero;
    [EmbeddingsManager.cosine_similarity] returns [0.0] there, but the
    module-level [similarity] divides [0.0] by [0.0] and returns NaN. *)
Theorem similarity_zero_vector_is_nan :
  np_norm [0] = 0
  /\ EmbeddingsManager.cosine_similarity [0] [1] = Ok 0
  /\ is_nan (Embeddings.similarity [0] [1]) = true
  /\ Embeddings.similarity [0] [1] <> 0.
Proof.
  repeat split; try reflexivity.
  intros H.
  assert (Hnan : is_nan (Embeddings.similarity [0] [1]) = true) by reflexivity.
  rewrite H in Hnan. discriminate Hnan.
Qed.

End Cosine.

(** ** Loading the embedding model *)

Section ModelUnavailable.
Context {Model : Type}.
Variable SentenceTransformer : string -> pyresult Model.
Variable encode : Model -> str -> pyresult (list float).
Variable encode_many : Model -> list str -> pyresult (list (list float)).

(** The model cannot be loaded: the constructor raises [e]. *)
Variable e : exn.
Hypothesis load_fails : forall model_name, SentenceTransformer model_name = Raise e.

(** C9, amended. When the model cannot be loaded, constructing an
    [EmbeddingsManager] fails with the error of the loader, while
    [embed_text] and [embed_texts] of [embeddings.py] do not fail: they
    return an empty list and leave the global model unset.  That is so
    for every load error, an [Exception]; only what [except Exception]
    does not catch (an interrupt, an exit) passes through them as
    well, the global model unset all the same. *)
Theorem model_unavailable (model_name : string) (text : str) (texts : list str) :
  EmbeddingsManager.__init__ SentenceTransformer model_name = Raise e
  /\ (is_Exception e = true ->
      Embeddings.embed_text SentenceTransformer encode text None = (Ok [], None)
      /\ Embeddings.embed_texts SentenceTransformer encode_many texts None
         = (Ok [], None))
  /\ (is_Exception e = false ->
      Embeddings.embed_text SentenceTransformer encode text None
      = (Raise e, None)
      /\ Embeddings.embed_texts SentenceTransformer encode_many texts None
         = (Raise e, None)).
Proof.
  unfold EmbeddingsManager.__init__, Embeddings.embed_text, Embeddings.embed_texts,
    Embeddings.get_embeddings_model.
  rewrite !load_fails. repeat split; rewrite H; reflexivity.
Qed.

End ModelUnavailable.

Lemma model_unavailable_witness :
  EmbeddingsManager.__init__ NoModel.SentenceTransformer "all-MiniLM-L6-v2"
  = Raise NoModel.load_error
  /\ Embeddings.embed_text NoModel.SentenceTransformer NoModel.encode
       (txt "hello") None = (Ok [], None)
  /\ Embeddings.embed_texts NoModel.SentenceTransformer NoModel.encode_many
       [txt "hello"; txt "world"] None = (Ok [], None).
Proof.
  destruct (model_unavailable NoModel.SentenceTransformer NoModel.encode
              NoModel.encode_many NoModel.load_error (fun _ => eq_refl)
              "all-MiniLM-L6-v2" (txt "hello") [txt "hello"; txt "world"])
    as (Hinit & Herror & _).
  split; [exact Hinit | apply Herror; reflexivity].
Defined.

(** C9, as claimed, fails: with a loader that raises, [embed_text] and
    [embed_texts] of [embeddings.py] return normally, with an empty list. *)
Lemma embed_text_swallows_load_failure :
  (forall model_name, raises (NoModel.SentenceTransformer model_name) = true)
  /\ raises (fst (Embeddings.embed_text NoModel.SentenceTransformer
                    NoModel.encode (txt "hello") None)) = false
  /\ fst (Embeddings.embed_text NoModel.SentenceTransformer
            NoModel.encode (txt "hello") None) = Ok []
  /\ fst (Embeddings.embed_texts NoModel.SentenceTransformer
            NoModel.encode_many [txt "hello"] None) = Ok [].
Proof. repeat split. Qed.

(** ** The task registry and the executor *)

Section Tasks.
Import TaskManager.

Lemma ids_perm jl jl' : jl ≡ₚ jl' -> ids jl ≡ₚ ids jl'.
Proof. intros H. unfold ids. now rewrite H. Qed.

Lemma Inv_at_perm reg jl jl' : jl ≡ₚ jl' -> Inv_at reg jl -> Inv_at reg jl'.
Proof.
  intros Hp [Hnd Hjobs Hrest]. split.
  - now rewrite <- (ids_perm _ _ Hp).
  - intros j pos Hin. apply Hjobs. now rewrite Hp.
  - intros id t Hreg Hout. apply (Hrest id t Hreg).
    now rewrite (ids_perm _ _ Hp).
Qed.

Lemma insert_perm_delete {A} (l : list A) (i : nat) (x y : A) :
  l !! i = Some x -> <[i := y]> l ≡ₚ y :: delete i l.
Proof.
  revert i. induction l as [|a l IH]; intros [|i] H; simplify_eq/=; [done|].
  rewrite IH by done. apply perm_swap.
Qed.

Lemma perm_lookup_middle {A} (l1 l2 : list A) (n : nat) (x : A) :
  l2 !! n = Some x -> l1 ++ l2 ≡ₚ x :: l1 ++ delete n l2.
Proof.
  intros H. rewrite Permutation_middle.
  apply Permutation_app_head. now apply delete_Permutation.
Qed.

Lemma perm_insert_middle {A} (l1 l2 : list A) (n : nat) (x y : A) :
  l2 !! n = Some x -> l1 ++ <[n := y]> l2 ≡ₚ y :: l1 ++ delete n l2.
Proof.
  intros H. rewrite Permutation_middle.
  apply Permutation_app_head. now apply (insert_perm_delete _ _ x).
Qed.

Lemma forward_refl st : forward st st = true.
Proof. now destruct st. Qed.

(** What the outcomes are, by where control goes after the call. *)
Lemma after_call_Continues o :
  after_call o = Continues ->
  (exists v, o = Returns v) \/ (exists e, o = Raises e /\ is_Exception e = true).
Proof.
  destruct o as [v|e|]; simpl; [left; now exists v| |done].
  destruct (is_Exception e) eqn:He; [|done]. right. now exists e.
Qed.

Lemma after_call_Escapes o :
  after_call o = Escapes -> exists e, o = Raises e /\ is_Exception e = false.
Proof.
  destruct o as [v|e|]; simpl; [done| |done].
  destruct (is_Exception e) eqn:He; [done|]. now exists e.
Qed.

Lemma after_call_Waits o : after_call o = Waits <-> o = Blocks.
Proof.
  destruct o as [v|e|]; simpl; [done| |done].
  now destruct (is_Exception e).
Qed.

(** The assignments after the call as changes of one record. *)
Lemma assign_status_alter id o reg :
  after_call o = Continues ->
  assign_status id o reg = alter (set_status (final_status o)) id reg.
Proof.
  intros [[v ->]|(e & -> & He)]%after_call_Continues; simpl; [done|].
  now rewrite He.
Qed.

Lemma assign_payload_alter id o reg :
  after_call o = Continues ->
  exists f, assign_payload id o reg = alter f id reg
            /\ forall t, fits o (Active StatusSet) t ->
                  status (f t) = status t /\ finished o (f t).
Proof.
  intros [[v ->]|(e & -> & He)]%after_call_Continues; simpl.
  - exists (set_result v). split; [done|].
    intros t (Hst & Hres & Herr). unfold finished. simpl. done.
  - exists (set_error (Some (exn_str e))). split; [done|].
    intros t (Hst & Hres & Herr). unfold finished. simpl in *.
    rewrite He in *. done.
Qed.

Lemma assign_progress_alter id o reg :
  after_call o = Continues ->
  exists f, assign_progress id o reg = alter f id reg
            /\ forall t, status (f t) = status t
                         /\ result (f t) = result t /\ error (f t) = error t.
Proof.
  intros [[v ->]|(e & -> & He)]%after_call_Continues; simpl.
  - now exists (set_progress 100).
  - now exists (set_progress 0).
Qed.

(** A work item whose exception leaves [_execute_task] leaves its
    record as the first assignment made it. *)
Lemma fits_Escapes o ph t :
  after_call o = Escapes -> fits o (Active ph) t -> finished o t.
Proof.
  intros (e & -> & He)%after_call_Escapes. unfold fits, finished. simpl.
  rewrite He. destruct ph; done.
Qed.

(** The records that [fits] and [finished] look at. *)
Lemma fits_same o pos t t' :
  status t' = status t -> result t' = result t -> error t' = error t ->
  fits o pos t -> fits o pos t'.
Proof.
  intros Hst Hres Herr. unfold fits, finished.
  rewrite Hst, Hres, Herr. done.
Qed.

Lemma finished_same o t t' :
  status t' = status t -> result t' = result t -> error t' = error t ->
  finished o t -> finished o t'.
Proof. intros Hst Hres Herr. unfold finished. rewrite Hst, Hres, Herr. done. Qed.

(** Every enabled event of a run without resubmission is one of the
    transitions above. *)
Lemma step_trans ev s s' :
  is_fresh ev s = true -> step ev s = Some s' ->
  trans (tasks_tracking s) (jobs s) (tasks_tracking s') (jobs s').
Proof.
  destruct s as [reg q a]. unfold jobs.
  destruct ev as [id w now| |n|id p now|id]; simpl; intros Hfresh Hstep.
  - simplify_eq/=. apply bool_decide_eq_true in Hfresh.
    apply (trans_submit _ _ id w now); [done|].
    rewrite fmap_app. simpl. rewrite <- app_assoc. simpl.
    now rewrite <- Permutation_middle.
  - destruct q as [|j q]; [done|].
    destruct (_ <? _)%nat; simplify_eq/=.
    apply (trans_job _ _ j Queued
             (((fun j => (j, Queued)) <$> q)
              ++ ((fun jp => (fst jp, Active (snd jp))) <$> a))
             (set_status running) (Some (Active Started))).
    + done.
    + rewrite fmap_app. simpl. now rewrite <- !Permutation_middle, app_nil_r.
    + intros t (Hst & Hres & Herr). rewrite Hst. now simpl.
  - unfold advance in Hstep. simpl in Hstep.
    destruct (a !! n) as [[j ph]|] eqn:Hn; [|done].
    set (g := fun jp : job * phase => (fst jp, Active (snd jp))).
    assert (Hdel : ((fun j => (j, Queued)) <$> q) ++ (g <$> a)
                   ≡ₚ (j, Active ph)
                      :: ((fun j => (j, Queued)) <$> q) ++ delete n (g <$> a)).
    { apply (perm_lookup_middle _ (g <$> a) n (g (j, ph))).
      now rewrite list_lookup_fmap, Hn. }
    assert (Hins : forall ph', ((fun j => (j, Queued)) <$> q)
                               ++ (g <$> <[n := (j, ph')]> a)
                   ≡ₚ (j, Active ph')
                      :: ((fun j => (j, Queued)) <$> q) ++ delete n (g <$> a)).
    { intros ph'. rewrite list_fmap_insert.
      apply (perm_insert_middle _ (g <$> a) n (g (j, ph))).
      now rewrite list_lookup_fmap, Hn. }
    destruct (after_call (job_work j)) eqn:Hctl; [| |done].
    + destruct ph; simplify_eq/=.
      * rewrite assign_status_alter by done.
        apply (trans_job _ _ j (Active Started) _
                 (set_status (final_status (job_work j)))
                 (Some (Active StatusSet)) _ Hdel (Hins StatusSet)).
        intros t (Hst & Hres & Herr). rewrite Hst. simpl.
        split; [|done]. unfold final_status.
        destruct (job_work j) as [v|e|]; try destruct (is_Exception e); done.
      * destruct (assign_payload_alter (job_id j) (job_work j) reg Hctl)
          as (f & -> & Hf).
        apply (trans_job _ _ j (Active StatusSet) _ f
                 (Some (Active PayloadSet)) _ Hdel (Hins PayloadSet)).
        intros t Hfit. destruct (Hf t Hfit) as [-> Hfin].
        now rewrite forward_refl.
      * destruct (assign_progress_alter (job_id j) (job_work j) reg Hctl)
          as (f & -> & Hf).
        apply (trans_job _ _ j (Active PayloadSet) _ f None _ Hdel).
        -- now rewrite list_fmap_delete.
        -- intros t Hfin. destruct (Hf t) as (Hst & Hres & Herr).
           rewrite Hst, forward_refl. split; [done|].
           now apply (finished_same _ t).
    + simplify_eq/=.
      assert (Hdrop : trans reg (((fun j => (j, Queued)) <$> q) ++ (g <$> a))
                        (alter (fun t => t) (job_id j) reg)
                        (((fun j => (j, Queued)) <$> q) ++ (g <$> delete n a))).
      { apply (trans_job _ _ j (Active ph) _ (fun t => t) None _ Hdel).
        - now rewrite list_fmap_delete.
        - intros t Hfit. rewrite forward_refl. split; [done|].
          now apply (fits_Escapes _ ph). }
      now rewrite alter_id in Hdrop.
  - unfold update_task_progress in Hstep. simpl in Hstep.
    destruct (reg !! id); simplify_eq/=; [|apply trans_none].
    rewrite alter_alter_eq. now apply trans_touch.
  - simplify_eq. apply trans_none.
Qed.

Lemma ids_cons j pos jl : ids ((j, pos) :: jl) = job_id j :: ids jl.
Proof. reflexivity. Qed.

Lemma elem_of_ids j pos jl : (j, pos) ∈ jl -> job_id j ∈ ids jl.
Proof.
  intros Hin. unfold ids.
  now apply (list_elem_of_fmap_2 (fun jp => job_id (fst jp)) jl (j, pos)).
Qed.

(** The id of a work item is registered. *)
Lemma Inv_at_registered reg jl id :
  Inv_at reg jl -> id ∈ ids jl -> is_Some (reg !! id).
Proof.
  intros HI Hin. unfold ids in Hin.
  apply list_elem_of_fmap in Hin as ([j pos] & -> & Hin).
  destruct (inv_jobs _ _ HI j pos Hin) as (t & Ht & _). now exists t.
Qed.

Lemma trans_Inv reg jl reg' jl' :
  Inv_at reg jl -> trans reg jl reg' jl' -> Inv_at reg' jl'.
Proof.
  intros HI Ht. destruct Ht as [id w now jl' Hnone Hp|j pos rest f next jl' Hp Hp' Hf|id f Hf|].
  - apply (Inv_at_perm _ ((Job id w, Queued) :: jl)); [done|].
    assert (Hout : id ∉ ids jl).
    { intros Hin. destruct (Inv_at_registered _ _ _ HI Hin) as [t Ht]. congruence. }
    split.
    + rewrite ids_cons. apply NoDup_cons. split; [done | apply HI].
    + intros j pos Hin. apply elem_of_cons in Hin as [Heq|Hin].
      * simplify_eq/=. exists (fresh_task now). now rewrite lookup_insert_eq.
      * destruct (inv_jobs _ _ HI j pos Hin) as (t & Ht & Hfit).
        exists t. split; [|done].
        rewrite lookup_insert_ne; [done|]. intros ->. congruence.
    + intros id' t Hreg Hnotin. rewrite ids_cons in Hnotin.
      apply not_elem_of_cons in Hnotin as [Hne Hnotin]. simpl in Hne.
      rewrite lookup_insert_ne in Hreg by done.
      now apply (inv_rest _ _ HI id' t).
  - apply (Inv_at_perm _ _ _ Hp) in HI. destruct HI as [Hnd Hjobs Hrest].
    rewrite ids_cons in Hnd. apply NoDup_cons in Hnd as [Hhead Hnd].
    destruct (Hjobs j pos ltac:(left)) as (t & Ht & Hfit).
    destruct (Hf t Hfit) as [_ Hnext].
    assert (Hother : forall j' pos', (j', pos') ∈ rest ->
              exists t', alter f (job_id j) reg !! job_id j' = Some t'
                         /\ fits (job_work j') pos' t').
    { intros j' pos' Hin.
      destruct (Hjobs j' pos' ltac:(now right)) as (t' & Ht' & Hfit').
      exists t'. split; [|done].
      rewrite lookup_alter_ne; [done|].
      intros Heq. apply Hhead. rewrite Heq. now apply (elem_of_ids j' pos'). }
    symmetry in Hp'. apply (Inv_at_perm _ _ _ Hp'). destruct next as [pos'|]; split.
    + rewrite ids_cons. now apply NoDup_cons.
    + intros j' pos'' Hin. apply elem_of_cons in Hin as [Heq|Hin]; [|now apply Hother].
      simplify_eq. exists (f t). now rewrite lookup_alter_eq, Ht.
    + intros id t' Hreg Hnotin. rewrite ids_cons in Hnotin.
      apply not_elem_of_cons in Hnotin as [Hne Hnotin]. simpl in Hne.
      rewrite lookup_alter_ne in Hreg by done.
      apply (Hrest id t' Hreg). rewrite ids_cons.
      apply not_elem_of_cons. done.
    + done.
    + done.
    + intros id t' Hreg Hnotin. destruct (decide (id = job_id j)) as [->|Hne].
      * rewrite lookup_alter_eq, Ht in Hreg. simplify_eq/=. now exists (job_work j).
      * rewrite lookup_alter_ne in Hreg by done.
        apply (Hrest id t' Hreg). rewrite ids_cons.
        apply not_elem_of_cons. done.
  - destruct HI as [Hnd Hjobs Hrest]. split; [done| |].
    + intros j pos Hin. destruct (Hjobs j pos Hin) as (t & Ht & Hfit).
      destruct (decide (id = job_id j)) as [->|Hne].
      * exists (f t). rewrite lookup_alter_eq, Ht. split; [done|].
        destruct (Hf t) as (? & ? & ?). now apply (fits_same _ _ t).
      * exists t. now rewrite lookup_alter_ne.
    + intros id' t' Hreg Hnotin. destruct (decide (id = id')) as [->|Hne].
      * rewrite lookup_alter_eq in Hreg.
        destruct (reg !! id') as [t|] eqn:Ht; simplify_eq/=.
        destruct (Hrest id' t Ht Hnotin) as [o Ho]. exists o.
        destruct (Hf t) as (? & ? & ?). now apply (finished_same _ t).
      * rewrite lookup_alter_ne in Hreg by done. now apply (Hrest id' t').
  - done.
Qed.

(** No transition moves a status backwards or removes a record. *)
Lemma trans_forward reg jl reg' jl' id t :
  Inv_at reg jl -> trans reg jl reg' jl' -> reg !! id = Some t ->
  exists t', reg' !! id = Some t'
             /\ forward (status t) (status t') = true.
Proof.
  intros HI Ht Hreg.
  destruct Ht as [id' w now jl' Hnone Hp|j pos rest f next jl' Hp Hp' Hf|id' f Hf|].
  - exists t. rewrite lookup_insert_ne by congruence.
    split; [done | apply forward_refl].
  - destruct (decide (id = job_id j)) as [->|Hne].
    + destruct (inv_jobs _ _ HI j pos) as (t0 & Ht0 & Hfit);
        [rewrite Hp; left|].
      simplify_eq. exists (f t). rewrite lookup_alter_eq, Hreg.
      split; [done | apply (Hf t Hfit)].
    + exists t. rewrite lookup_alter_ne by done.
      split; [done | apply forward_refl].
  - destruct (decide (id' = id)) as [->|Hne].
    + exists (f t). rewrite lookup_alter_eq, Hreg. split; [done|].
      destruct (Hf t) as (-> & _). apply forward_refl.
    + exists t. rewrite lookup_alter_ne by done.
      split; [done | apply forward_refl].
  - exists t. split; [done | apply forward_refl].
Qed.

(** A task stays tracked: its work item moves through the executor and
    leaves it with the record of its outcome, which then stays. *)
Lemma trans_Tracks reg jl reg' jl' id o :
  Inv_at reg jl -> trans reg jl reg' jl' ->
  Tracks id o reg jl -> Tracks id o reg' jl'.
Proof.
  intros HI Ht Htr.
  assert (Hreg : is_Some (reg !! id)).
  { destruct Htr as [[pos Hin]|(_ & t & Ht' & _)]; [|now exists t].
    apply (Inv_at_registered _ jl); [done|].
    now apply (elem_of_ids (Job id o) pos). }
  destruct Ht as [id' w now jl' Hnone Hp|j pos rest f next jl' Hp Hp' Hf|id' f Hf|].
  - assert (Hne : id' <> id) by (intros ->; destruct Hreg; congruence).
    destruct Htr as [[pos Hin]|(Hout & t & Ht' & Hfin)].
    + left. exists pos. rewrite Hp. now right.
    + right. split.
      * rewrite (ids_perm _ _ Hp), ids_cons.
        apply not_elem_of_cons. split; [simpl; congruence | done].
      * exists t. now rewrite lookup_insert_ne.
  - apply (Inv_at_perm _ _ _ Hp) in HI. destruct HI as [Hnd Hjobs Hrest].
    rewrite ids_cons in Hnd. apply NoDup_cons in Hnd as [Hhead Hnd].
    destruct Htr as [[pos0 Hin]|(Hout & t & Ht' & Hfin)].
    + rewrite Hp in Hin. apply elem_of_cons in Hin as [Heq|Hin].
      * simplify_eq. destruct (Hjobs (Job id o) pos ltac:(left)) as (t & Ht' & Hfit).
        destruct (Hf t Hfit) as [_ Hnext]. simpl in *.
        destruct next as [pos'|].
        -- left. exists pos'. rewrite Hp'. left.
        -- right. split; [now rewrite (ids_perm _ _ Hp')|].
           exists (f t). now rewrite lookup_alter_eq, Ht'.
      * left. exists pos0. rewrite Hp'. destruct next; [now right | done].
    + rewrite (ids_perm _ _ Hp), ids_cons in Hout.
      apply not_elem_of_cons in Hout as [Hne Hout].
      right. split.
      * rewrite (ids_perm _ _ Hp'). destruct next; [|done].
        rewrite ids_cons. now apply not_elem_of_cons.
      * exists t. now rewrite lookup_alter_ne.
  - destruct Htr as [[pos Hin]|(Hout & t & Ht' & Hfin)]; [left; now exists pos|].
    right. split; [done|].
    destruct (decide (id' = id)) as [->|Hne].
    + exists (f t). rewrite lookup_alter_eq, Ht'. split; [done|].
      destruct (Hf t) as (? & ? & ?). now apply (finished_same _ t).
    + exists t. now rewrite lookup_alter_ne.
  - done.
Qed.

(** *** Runs *)

Lemma Inv_initial : Inv initial.
Proof.
  split; simpl.
  - constructor.
  - intros j pos Hin. now apply elem_of_nil in Hin.
  - intros id t Hreg. now rewrite lookup_empty in Hreg.
Qed.

Lemma run_fresh_cons ev evs s s'' :
  run_fresh (ev :: evs) s = Some s'' ->
  exists s', is_fresh ev s = true /\ step ev s = Some s'
             /\ run_fresh evs s' = Some s''.
Proof.
  simpl. destruct (is_fresh ev s); [|done].
  destruct (step ev s) as [s'|]; [|done]. intros H. now exists s'.
Qed.

Lemma run_fresh_app evs1 evs2 s s'' :
  run_fresh (evs1 ++ evs2) s = Some s'' <->
  exists s', run_fresh evs1 s = Some s' /\ run_fresh evs2 s' = Some s''.
Proof.
  revert s. induction evs1 as [|ev evs1 IH]; intros s; simpl.
  - split; [intros H; now exists s | now intros (s' & [= ->] & H)].
  - destruct (is_fresh ev s); [|split; [done | now intros (? & ? & ?)]].
    destruct (step ev s) as [s1|]; [apply IH|].
    split; [done | now intros (? & ? & ?)].
Qed.

Lemma step_Inv ev s s' :
  Inv s -> is_fresh ev s = true -> step ev s = Some s' -> Inv s'.
Proof.
  intros HI Hfresh Hstep. apply (trans_Inv _ _ _ _ HI).
  now apply (step_trans ev).
Qed.

Lemma run_fresh_Inv evs s s' :
  Inv s -> run_fresh evs s = Some s' -> Inv s'.
Proof.
  revert s. induction evs as [|ev evs IH]; intros s HI Hrun.
  - now simplify_eq/=.
  - apply run_fresh_cons in Hrun as (s1 & Hfresh & Hstep & Hrun).
    apply (IH s1); [|done]. now apply (step_Inv ev s).
Qed.

Lemma run_fresh_Tracks evs s s' id o :
  Inv s -> Tracks id o (tasks_tracking s) (jobs s) ->
  run_fresh evs s = Some s' ->
  Tracks id o (tasks_tracking s') (jobs s').
Proof.
  revert s. induction evs as [|ev evs IH]; intros s HI Htr Hrun.
  - now simplify_eq/=.
  - apply run_fresh_cons in Hrun as (s1 & Hfresh & Hstep & Hrun).
    apply (IH s1); [now apply (step_Inv ev s)| |done].
    apply (trans_Tracks _ _ _ _ _ _ HI); [|done]. now apply (step_trans ev).
Qed.

(** A submitted task is tracked from its submission on. *)
Lemma submitted_Tracks evs s s' id o now :
  Inv s -> run_fresh evs s = Some s' -> In (Submit id o now) evs ->
  Tracks id o (tasks_tracking s') (jobs s').
Proof.
  revert s. induction evs as [|ev evs IH]; intros s HI Hrun Hin; [done|].
  apply run_fresh_cons in Hrun as (s1 & Hfresh & Hstep & Hrun).
  assert (HI1 : Inv s1) by now apply (step_Inv ev s).
  destruct Hin as [->|Hin]; [|now apply (IH s1)].
  apply (run_fresh_Tracks evs s1); [done| |done].
  simpl in Hstep. simplify_eq. left. exists Queued.
  unfold jobs. simpl. rewrite fmap_app. simpl.
  apply elem_of_app. left. apply elem_of_app. right. left.
Qed.

Lemma forward_trans a b c :
  forward a b = true -> forward b c = true -> forward a c = true.
Proof. now destruct a, b, c. Qed.

Lemma run_fresh_forward evs s s' id t :
  Inv s -> run_fresh evs s = Some s' -> tasks_tracking s !! id = Some t ->
  exists t', tasks_tracking s' !! id = Some t'
             /\ forward (status t) (status t') = true.
Proof.
  revert s t. induction evs as [|ev evs IH]; intros s t HI Hrun Hreg.
  - simplify_eq/=. exists t. split; [done | apply forward_refl].
  - apply run_fresh_cons in Hrun as (s1 & Hfresh & Hstep & Hrun).
    destruct (trans_forward _ _ _ _ id t HI (step_trans ev s s1 Hfresh Hstep) Hreg)
      as (t1 & Hreg1 & Hfw1).
    destruct (IH s1 t1 (step_Inv ev s s1 HI Hfresh Hstep) Hrun Hreg1)
      as (t' & Hreg' & Hfw').
    exists t'. split; [done | now apply (forward_trans _ (status t1))].
Qed.

Lemma fits_at_most_one o pos t : fits o pos t -> at_most_one t = true.
Proof.
  unfold at_most_one, fits, finished.
  destruct pos as [|[]], o as [v|e|]; intros H; destruct_and?;
    repeat match goal with H : _ = None |- _ => rewrite H end;
    try done; now destruct (result t).
Qed.

(** Under the invariant no record has both a result and an error. *)
Lemma Inv_at_most_one s id t :
  Inv s -> tasks_tracking s !! id = Some t -> at_most_one t = true.
Proof.
  intros HI Hreg. destruct (decide (id ∈ ids (jobs s))) as [Hin|Hout].
  - unfold ids in Hin. apply list_elem_of_fmap in Hin as ([j pos] & -> & Hin).
    destruct (inv_jobs _ _ HI j pos Hin) as (t' & Ht' & Hfit).
    simpl in Hreg. simplify_eq. now apply (fits_at_most_one (job_work j) pos).
  - destruct (inv_rest _ _ HI id t Hreg Hout) as [o Hfin].
    now apply (fits_at_most_one o (Active PayloadSet)).
Qed.

(** *** The executor finishes its work *)

Ltac work_left_lia :=
  unfold work_left in *;
  cbn [queue active foldr weight snd length] in *; lia.

Lemma drain_bounded (n : nat) (s : pool) :
  terminating s ->
  (work_left s <= n)%nat ->
  exists evs s', Forall worker_event evs
                 /\ run_fresh evs s = Some s'
                 /\ queue s' = [] /\ active s' = [].
Proof.
  revert s. induction n as [|n IH]; intros [reg q a] [Hq Ha] Hn;
    cbn [queue active] in Hq, Ha.
  - destruct q; [|exfalso; work_left_lia].
    destruct a as [|[j ph] a]; [|exfalso; destruct ph; work_left_lia].
    exists [], (Pool reg [] []). repeat split. constructor.
  - destruct a as [|[j ph] a].
    + destruct q as [|j q].
      { exists [], (Pool reg [] []). repeat split. constructor. }
      inversion Hq as [|? ? Hj Hq']; subst.
      destruct (IH (Pool (assign_running (job_id j) reg) q [(j, Started)]))
        as (evs & s' & Hev & Hrun & Hq'' & Ha'').
      { split; [exact Hq' | now repeat constructor]. }
      { work_left_lia. }
      exists (Dispatch :: evs), s'. repeat split; try done.
      constructor; [now left | done].
    + inversion Ha as [|? ? Hj Ha']; subst. cbn [fst] in Hj.
      destruct (after_call (job_work j)) eqn:Hctl.
      * assert (Hnext : exists s1,
                   step (Advance 0) (Pool reg q ((j, ph) :: a)) = Some s1
                   /\ terminating s1 /\ (work_left s1 <= n)%nat).
        { cbn [step]. unfold advance. cbn [active lookup list_lookup].
          rewrite Hctl. destruct ph; eexists; (split; [reflexivity|]);
            (split; [split; simpl; [exact Hq | first [exact Ha' | now constructor]]
                    | simpl; work_left_lia]). }
        destruct Hnext as (s1 & Hstep & Hterm & Hleft).
        destruct (IH s1 Hterm Hleft) as (evs & s' & Hev & Hrun & Hq'' & Ha'').
        exists (Advance 0 :: evs), s'. repeat split; try done.
        -- constructor; [right; now exists 0%nat | done].
        -- cbn [run_fresh is_fresh]. now rewrite Hstep.
      * destruct (IH (Pool reg q a)) as (evs & s' & Hev & Hrun & Hq'' & Ha'').
        { now split. }
        { destruct ph; work_left_lia. }
        exists (Advance 0 :: evs), s'. repeat split; try done.
        -- constructor; [right; now exists 0%nat | done].
        -- cbn [run_fresh is_fresh step]. unfold advance.
           cbn [active lookup list_lookup]. now rewrite Hctl.
      * now apply after_call_Waits in Hctl.
Qed.

(** When every call of a work comes to an end, the worker threads alone
    empty the executor. *)
Lemma drain (s : pool) :
  terminating s ->
  exists evs s', Forall worker_event evs
                 /\ run_fresh evs s = Some s'
                 /\ queue s' = [] /\ active s' = [].
Proof. intros Hterm. now apply (drain_bounded (work_left s)). Qed.

(** *** [_execute_task] as one call *)

(** On a registered id the call is decided by the work alone: it
    returns when the work returns or raises an [Exception], it raises
    what the work raises otherwise, and it does not return when the
    work does not. *)
Lemma execute_task_registered id o reg :
  is_Some (reg !! id) ->
  fst <$> _execute_task id o reg
  = match o with
    | Returns _ => Some (Ok tt)
    | Raises e => Some (if is_Exception e then Ok tt else Raise e)
    | Blocks => None
    end.
Proof.
  intros [t Ht]. unfold _execute_task. rewrite Ht.
  destruct o as [v|e|]; simpl; [done| |done]. now destruct (is_Exception e).
Qed.

(** Run by a single thread on a fresh record, a call that ends leaves
    the record of its outcome. *)
Lemma execute_task_finished id o reg t :
  reg !! id = Some t -> fits o Queued t -> o <> Blocks ->
  exists r t', _execute_task id o reg = Some r
               /\ snd r !! id = Some t' /\ finished o t'.
Proof.
  intros Ht (Hst & Hres & Herr) Hends. unfold _execute_task. rewrite Ht.
  unfold assign_progress, assign_payload, assign_status, assign_running.
  destruct o as [v|e|]; [| |done]; simpl; try destruct (is_Exception e) eqn:He;
    (eexists; eexists; split; [reflexivity|]); simpl;
    rewrite !lookup_alter_eq, Ht; simpl;
    (split; [reflexivity|]); unfold finished; simpl; rewrite ?He; done.
Qed.

(** The worker events of a single work item make up the call. *)
Lemma execute_task_steps id o reg :
  is_Some (reg !! id) -> o <> Blocks ->
  exists r, _execute_task id o reg = Some r
            /\ run (worker_events o) (Pool reg [Job id o] [])
               = Some (Pool (snd r) [] []).
Proof.
  intros [t Ht] Hends. unfold _execute_task, worker_events. rewrite Ht.
  destruct o as [v|e|]; [| |done]; simpl; try destruct (is_Exception e) eqn:He;
    (eexists; split; [reflexivity|]); simpl; unfold advance; simpl;
    try reflexivity; repeat (rewrite He; simpl); reflexivity.
Qed.

(** *** Submitting an id twice *)

(** C3, as claimed, fails: after the task ["t1"] has completed, a second
    submission under the same id returns the id, replaces the completed
    record by a fresh pending one and queues the new work. *)
Lemma submit_task_twice_accepted :
  exists s,
    run [Submit "t1" (Returns (Some "first")) 1;
         Dispatch; Advance 0; Advance 0; Advance 0] initial = Some s
    /\ get_task_status "t1" s = Some (Task completed 1 1 (Some "first") None 100)
    /\ fst (submit_task "t1" (Returns (Some "second")) 2 s) = Ok "t1"
    /\ get_task_status "t1" (snd (submit_task "t1" (Returns (Some "second")) 2 s))
       = Some (Task pending 2 2 None None 0)
    /\ queue (snd (submit_task "t1" (Returns (Some "second")) 2 s))
       = [Job "t1" (Returns (Some "second"))].
Proof. eexists. split; [reflexivity|]. repeat split. Qed.

(** C3, amended. For every task id already present in the registry a
    second [submit_task] with that id is accepted: it returns the id,
    replaces the record by a fresh pending one, queues the new work
    behind the work already there and leaves all other records alone. *)
Theorem submit_task_overwrites (s : pool) (task_id : string) (work : outcome)
    (now : Z) :
  is_Some (get_task_status task_id s) ->
  fst (submit_task task_id work now s) = Ok task_id
  /\ get_task_status task_id (snd (submit_task task_id work now s))
     = Some (fresh_task now)
  /\ queue (snd (submit_task task_id work now s))
     = queue s ++ [Job task_id work]
  /\ active (snd (submit_task task_id work now s)) = active s
  /\ forall other, other <> task_id ->
       get_task_status other (snd (submit_task task_id work now s))
       = get_task_status other s.
Proof.
  intros _. unfold get_task_status. simpl. repeat split.
  - apply lookup_insert_eq.
  - intros other Hne. now apply lookup_insert_ne.
Qed.

Lemma submit_task_overwrites_witness :
  get_task_status "t1"
    (snd (submit_task "t1" (Returns None) 7
            (snd (submit_task "t1" (Raises (ValueError "boom")) 3 initial))))
  = Some (fresh_task 7).
Proof.
  apply (submit_task_overwrites
           (snd (submit_task "t1" (Raises (ValueError "boom")) 3 initial))
           "t1" (Returns None) 7).
  vm_compute. eexists. reflexivity.
Defined.

(** *** The invariant of the records *)

(** C4, as claimed, fails once an id is submitted twice: the second
    submission takes a failed task back to pending, and when both work
    items have run the record holds the error of the first and the
    result of the second. *)
Lemma resubmission_breaks_invariant :
  (exists s s',
      run [Submit "t1" (Raises (ValueError "boom")) 1;
           Dispatch; Advance 0; Advance 0; Advance 0] initial = Some s
      /\ step (Submit "t1" (Returns (Some "ok")) 2) s = Some s'
      /\ (status <$> get_task_status "t1" s) = Some failed
      /\ (status <$> get_task_status "t1" s') = Some pending
      /\ forward failed pending = false)
  /\ (exists s,
        run [Submit "t1" (Raises (ValueError "boom")) 1;
             Submit "t1" (Returns (Some "ok")) 2;
             Dispatch; Advance 0; Advance 0; Advance 0;
             Dispatch; Advance 0; Advance 0; Advance 0] initial = Some s
        /\ get_task_status "t1" s
           = Some (Task completed 2 2 (Some "ok") (Some "boom") 100)
        /\ (at_most_one <$> get_task_status "t1" s) = Some false).
Proof.
  split.
  - eexists. eexists. split; [reflexivity|]. repeat split.
  - eexists. split; [reflexivity|]. repeat split.
Qed.

(** C4, amended. In every state reachable by operations of the task
    manager in which no id is submitted twice, each record has at most
    one of [result] and [error] set, and in whatever way the run goes on
    every record stays and its status only moves forward: pending, then
    running, then completed or failed for good. *)
Theorem records_consistent_without_resubmission (evs : list event) (s : pool) :
  run_fresh evs initial = Some s ->
  (forall id t, get_task_status id s = Some t -> at_most_one t = true)
  /\ (forall evs' s' id t,
        run_fresh evs' s = Some s' ->
        get_task_status id s = Some t ->
        exists t', get_task_status id s' = Some t'
                   /\ forward (status t) (status t') = true).
Proof.
  intros Hrun.
  assert (HI : Inv s) by now apply (run_fresh_Inv evs initial _ Inv_initial).
  split.
  - intros id t Hreg. now apply (Inv_at_most_one s id).
  - intros evs' s' id t Hrun' Hreg. now apply (run_fresh_forward evs' s).
Qed.

Lemma records_consistent_without_resubmission_witness :
  exists s,
    run_fresh [Submit "t1" (Raises (ValueError "boom")) 1;
               Submit "t2" (Returns (Some "ok")) 2;
               Dispatch; Advance 0; Dispatch; Advance 1; Advance 0] initial
    = Some s
    /\ forall id t, get_task_status id s = Some t -> at_most_one t = true.
Proof.
  eexists. split; [vm_compute; reflexivity|].
  apply (records_consistent_without_resubmission
           [Submit "t1" (Raises (ValueError "boom")) 1;
            Submit "t2" (Returns (Some "ok")) 2;
            Dispatch; Advance 0; Dispatch; Advance 1; Advance 0]).
  vm_compute. reflexivity.
Defined.

(** *** Failures of the work *)

(** C7, as claimed, fails in three ways.  For an exception without a
    message [str(e)] is the empty string, and that is what is recorded;
    when the id of the failing work is submitted again with a work
    that succeeds, the task ends completed, not failed; and a work that
    raises [SystemExit], which [except Exception] does not catch, leaves
    its task running for ever, without an error. *)
Lemma failure_not_recorded_as_claimed :
  (exists s,
      run [Submit "t2" (Raises (Exn "RuntimeError" "")) 1;
           Dispatch; Advance 0; Advance 0; Advance 0] initial = Some s
      /\ queue s = [] /\ active s = []
      /\ get_task_status "t2" s = Some (Task failed 1 1 None (Some "") 0)
      /\ (error <$> get_task_status "t2" s) = Some (Some ""))
  /\ (exists s,
        run [Submit "t2" (Raises (ValueError "boom")) 1;
             Submit "t2" (Returns (Some "ok")) 2;
             Dispatch; Dispatch; Advance 0; Advance 0; Advance 0;
             Advance 0; Advance 0; Advance 0] initial = Some s
        /\ queue s = [] /\ active s = []
        /\ (status <$> get_task_status "t2" s) = Some completed)
  /\ (exists s,
        run [Submit "t2" (Raises (Exn "SystemExit" "stop")) 1;
             Dispatch; Advance 0] initial = Some s
        /\ queue s = [] /\ active s = []
        /\ get_task_status "t2" s = Some (Task running 1 1 None None 0)
        /\ fst <$> _execute_task "t2" (Raises (Exn "SystemExit" "stop"))
                     (<["t2" := fresh_task 1]> ∅)
           = Some (Raise (Exn "SystemExit" "stop"))).
Proof.
  split; [|split]; (eexists; split; [reflexivity|]; repeat split).
Qed.

(** C7, amended. Take any run in which no id is submitted twice and in
    which a work that raises [e], an [Exception], was submitted under
    [id] and a work that returns [v] under [id'].  However the run goes
    on, once the work item of [id] has left the executor the task is
    failed with [str(e)] as its error (non-empty whenever the exception
    has a message) and no result, and once that of [id'] has left it
    the task is completed with result [v] and no error; whatever the
    other works do.  [_execute_task] itself returns normally on the
    failing work.  And the work items do leave the executor: as long as
    no call of a work it holds goes on for ever, the worker threads can
    always empty it. *)
Theorem failure_recorded_and_contained (evs : list event) (s : pool)
    (id id' : string) (e : exn) (v : option string) (now now' : Z) :
  run_fresh evs initial = Some s ->
  In (Submit id (Raises e) now) evs ->
  is_Exception e = true ->
  In (Submit id' (Returns v) now') evs ->
  (forall evs' s',
      run_fresh evs' s = Some s' ->
      (id ∉ ids (jobs s') ->
       exists t, get_task_status id s' = Some t
                 /\ status t = failed
                 /\ error t = Some (exn_str e)
                 /\ (exn_str e <> "" -> error t <> Some "" /\ error t <> None)
                 /\ result t = None)
      /\ (id' ∉ ids (jobs s') ->
          exists t, get_task_status id' s' = Some t
                    /\ status t = completed
                    /\ result t = v
                    /\ error t = None))
  /\ (forall reg, is_Some (reg !! id) ->
                  fst <$> _execute_task id (Raises e) reg = Some (Ok tt))
  /\ (forall evs' s',
        run_fresh evs' s = Some s' -> terminating s' ->
        exists evs'' s'', Forall worker_event evs''
                          /\ run_fresh evs'' s' = Some s''
                          /\ queue s'' = [] /\ active s'' = []).
Proof.
  intros Hrun Hin He Hin'. split; [|split].
  - intros evs' s' Hrun'.
    assert (Hall : run_fresh (evs ++ evs') initial = Some s')
      by (apply run_fresh_app; now exists s).
    split; intros Hout.
    + destruct (submitted_Tracks (evs ++ evs') initial s' id (Raises e) now
                  Inv_initial Hall) as [[pos Hpos]|(_ & t & Ht & Hst & Hres & Herr)].
      { apply in_or_app. now left. }
      { exfalso. apply Hout. now apply (elem_of_ids _ pos) in Hpos. }
      simpl in Hst. rewrite He in Hst, Herr.
      exists t. repeat split; try done; rewrite Herr; congruence.
    + destruct (submitted_Tracks (evs ++ evs') initial s' id' (Returns v) now'
                  Inv_initial Hall) as [[pos Hpos]|(_ & t & Ht & Hst & Hres & Herr)].
      { apply in_or_app. now left. }
      { exfalso. apply Hout. now apply (elem_of_ids _ pos) in Hpos. }
      now exists t.
  - intros reg Hreg. rewrite execute_task_registered by done. now rewrite He.
  - intros evs' s' _ Hterm. now apply drain.
Qed.

Lemma failure_recorded_and_contained_witness :
  exists s,
    run_fresh [Submit "t2" (Raises (ValueError "boom")) 1;
               Submit "t3" (Returns (Some "ok")) 2;
               Dispatch; Dispatch; Advance 1; Advance 0; Advance 1;
               Advance 0; Advance 0; Advance 0] initial = Some s
    /\ (exists t, get_task_status "t2" s = Some t
                  /\ status t = failed
                  /\ error t = Some "boom")
    /\ (exists t, get_task_status "t3" s = Some t
                  /\ status t = completed
                  /\ result t = Some "ok").
Proof.
  eexists. split; [vm_compute; reflexivity|].
  destruct (failure_recorded_and_contained
              [Submit "t2" (Raises (ValueError "boom")) 1;
               Submit "t3" (Returns (Some "ok")) 2;
               Dispatch; Dispatch; Advance 1; Advance 0; Advance 1;
               Advance 0; Advance 0; Advance 0]
              _ "t2" "t3" (ValueError "boom") (Some "ok") 1 2
              ltac:(vm_compute; reflexivity)
              ltac:(simpl; tauto) ltac:(reflexivity) ltac:(simpl; tauto))
    as (Hfinal & _ & _).
  destruct (Hfinal [] _ eq_refl) as [Hfail Hdone].
  split.
  - destruct Hfail as (t & Ht & Hst & Herr & _); [vm_compute; apply not_elem_of_nil|].
    exists t. repeat split; assumption.
  - destruct Hdone as (t & Ht & Hst & Hres & _); [vm_compute; apply not_elem_of_nil|].
    exists t. repeat split; assumption.
Defined.

End Tasks.

(** ** More on the chunker *)

Section ChunkerMore.
Import OCRProcessor.

Lemma scan_spaces s :
  Forall (fun c => is_space c = true) s -> scan s = ([], []).
Proof.
  induction 1 as [|c s Hc _ IH]; simpl; [reflexivity|].
  now rewrite IH, Hc.
Qed.

Lemma windows_from_nil {A} fuel (size stride : nat) :
  windows_from fuel (@nil A) size stride = [].
Proof. now destruct fuel. Qed.

Lemma windows_from_heads {A} fuel (l : list A) (size stride : nat) :
  (stride <= size)%nat ->
  map (firstn stride) (windows_from fuel l size stride)
  = windows_from fuel l stride stride.
Proof.
  intros Hle. revert l. induction fuel as [|fuel IH]; intros l; [reflexivity|].
  destruct l as [|x l]; [reflexivity|].
  cbn [windows_from map]. rewrite IH. f_equal.
  rewrite firstn_firstn. now rewrite Nat.min_l by assumption.
Qed.

Lemma windows_from_length fuel {A} (l : list A) (size stride : Z) :
  0 < size -> 0 < stride -> (length l <= fuel)%nat ->
  length (windows_from fuel l (Z.to_nat size) (Z.to_nat stride))
  = range_len 0 (Z.of_nat (length l)) stride.
Proof.
  intros Hsize Hstride Hfuel.
  rewrite windows_from_slices by assumption.
  now rewrite !length_map, length_seq.
Qed.

(** The tokens of the chunks are the windows. *)
Lemma split_chunks (windows : list (list str)) :
  Forall (Forall is_token) windows ->
  map split (map (join (txt " ")) windows) = windows.
Proof.
  induction 1 as [|w ws Hw _ IH]; cbn [map]; [reflexivity|].
  now rewrite IH, split_join.
Qed.

Lemma chunk_text_tokens text chunk_size overlap chunks :
  0 < chunk_size -> overlap < chunk_size ->
  chunk_text text chunk_size overlap = Ok chunks ->
  map split chunks
  = sliding_windows (split text) (Z.to_nat chunk_size)
      (Z.to_nat (chunk_size - overlap)).
Proof.
  intros Hsize Hov Hrun. rewrite chunk_text_valid in Hrun by assumption.
  injection Hrun as <-. apply split_chunks.
  apply windows_from_sublists, split_tokens.
Qed.

(** The number of chunks: the number of tokens divided by the stride,
    rounded up. *)
Theorem chunk_text_count (text : str) (chunk_size overlap : Z) :
  0 < chunk_size -> overlap < chunk_size ->
  exists chunks,
    chunk_text text chunk_size overlap = Ok chunks
    /\ Z.of_nat (length chunks)
       = (Z.of_nat (length (split text)) + (chunk_size - overlap) - 1)
         / (chunk_size - overlap).
Proof.
  intros Hsize Hov. eexists. split; [now apply chunk_text_valid|].
  rewrite length_map. unfold sliding_windows.
  rewrite windows_from_length by lia.
  set (n := Z.of_nat (length (split text))).
  set (stride := chunk_size - overlap).
  assert (Hn : 0 <= n) by (subst n; lia).
  assert (Hstride : 0 < stride) by (subst stride; lia).
  clearbody n stride. unfold range_len.
  destruct (Z.ltb_spec 0 stride); [|lia].
  destruct (Z.ltb_spec 0 n).
  - replace (n + stride - 1) with (n - 0 - 1 + 1 * stride) by lia.
    rewrite Z.div_add by lia.
    assert (0 <= (n - 0 - 1) / stride) by (apply Z.div_pos; lia). lia.
  - replace n with 0 by lia. rewrite Z.div_small by lia. reflexivity.
Qed.

Lemma chunk_text_count_witness :
  exists chunks,
    chunk_text (txt "a b c d e f g") 3 1 = Ok chunks
    /\ Z.of_nat (length chunks) = (7 + (3 - 1) - 1) / (3 - 1).
Proof. apply (chunk_text_count (txt "a b c d e f g") 3 1); lia. Defined.

(** Consecutive chunks overlap as asked: what a chunk holds after its
    first [chunk_size - overlap] tokens is the first [overlap] tokens of
    the next chunk. *)
Theorem chunk_text_overlap (text : str) (chunk_size overlap : Z)
    (chunks : list str) (j : nat) (chunk next : str) :
  0 <= overlap -> overlap < chunk_size ->
  chunk_text text chunk_size overlap = Ok chunks ->
  nth_error chunks j = Some chunk ->
  nth_error chunks (S j) = Some next ->
  skipn (Z.to_nat (chunk_size - overlap)) (split chunk)
  = firstn (Z.to_nat overlap) (split next).
Proof.
  intros Hov0 Hov Hrun Hj Hnext.
  pose proof (chunk_text_tokens text chunk_size overlap chunks
                ltac:(lia) Hov Hrun) as Htok.
  assert (Hw : forall i c, nth_error chunks i = Some c ->
             split c = firstn (Z.to_nat chunk_size)
                         (skipn (i * Z.to_nat (chunk_size - overlap)) (split text))).
  { intros i c Hi.
    assert (Hi' : nth_error (map split chunks) i = Some (split c))
      by (rewrite nth_error_map, Hi; reflexivity).
    rewrite Htok in Hi'. unfold sliding_windows in Hi'.
    rewrite windows_from_nth in Hi' by lia.
    destruct (_ <? _)%nat; congruence. }
  rewrite (Hw j chunk Hj), (Hw (S j) next Hnext).
  rewrite skipn_firstn_comm, firstn_firstn, skipn_skipn.
  f_equal; lia.
Qed.

Lemma chunk_text_overlap_witness :
  skipn (Z.to_nat (3 - 1)) (split (txt "a b c"))
  = firstn (Z.to_nat 1) (split (txt "c d e")).
Proof.
  apply (chunk_text_overlap (txt "a b c d e f") 3 1
           [txt "a b c"; txt "c d e"; txt "e f"] 0);
    (lia || reflexivity).
Defined.

(** No token is lost or moved: cut back to its first
    [chunk_size - overlap] tokens, the chunks give the tokens of the
    text, in order. *)
Theorem chunk_text_covers (text : str) (chunk_size overlap : Z)
    (chunks : list str) :
  0 <= overlap -> overlap < chunk_size ->
  chunk_text text chunk_size overlap = Ok chunks ->
  concat (map (fun chunk => firstn (Z.to_nat (chunk_size - overlap)) (split chunk))
              chunks)
  = split text.
Proof.
  intros Hov0 Hov Hrun.
  rewrite <- (map_map split (firstn (Z.to_nat (chunk_size - overlap)))).
  rewrite (chunk_text_tokens text chunk_size overlap chunks) by (assumption || lia).
  unfold sliding_windows. rewrite windows_from_heads by lia.
  apply windows_from_concat; lia.
Qed.

Lemma chunk_text_covers_witness :
  concat (map (fun chunk => firstn (Z.to_nat (3 - 1)) (split chunk))
              [txt "a b c"; txt "c d e"; txt "e f"])
  = split (txt "a b c d e f").
Proof.
  apply (chunk_text_covers (txt "a b c d e f") 3 1); (lia || reflexivity).
Defined.

Lemma chunk_text_no_tokens (text : str) (chunk_size overlap : Z) :
  Forall (fun c => is_space c = true) text ->
  overlap <> chunk_size ->
  chunk_text text chunk_size overlap = Ok [].
Proof.
  intros Hblank Hne. rewrite chunk_text_ok by lia.
  unfold split. rewrite (scan_spaces text Hblank).
  cbn [cons_token length]. change (Z.of_nat 0) with 0.
  assert (Hlen : range_len 0 0 (chunk_size - overlap) = 0%nat)
    by (unfold range_len; now destruct (0 <? chunk_size - overlap)).
  now rewrite Hlen.
Qed.

(** A text of whitespace only has no chunks, whatever the parameters,
    as long as the step is not zero. *)
Theorem chunk_text_blank (text : str) (chunk_size overlap : Z) :
  Forall (fun c => is_space c = true) text ->
  overlap <> chunk_size ->
  chunk_text text chunk_size overlap = Ok [].
Proof. apply chunk_text_no_tokens. Qed.

Lemma chunk_text_blank_witness :
  chunk_text (txt "
   ") 500 50 = Ok [].
Proof.
  apply chunk_text_blank; [|lia].
  repeat constructor.
Defined.

(** A text of at most [chunk_size - overlap] words is one chunk: its
    words, joined by single spaces. *)
Theorem chunk_text_short (text : str) (chunk_size overlap : Z) :
  0 <= overlap -> overlap < chunk_size ->
  split text <> [] ->
  Z.of_nat (length (split text)) <= chunk_size - overlap ->
  chunk_text text chunk_size overlap = Ok [join (txt " ") (split text)].
Proof.
  intros Hov0 Hov Hne Hlen. rewrite chunk_text_valid by lia.
  unfold sliding_windows. destruct (split text) as [|w ws]; [contradiction|].
  cbn [length windows_from map].
  rewrite (skipn_all2 (n := Z.to_nat (chunk_size - overlap)))
    by (simpl in *; lia).
  rewrite windows_from_nil.
  rewrite (firstn_all2 (n := Z.to_nat chunk_size)) by (simpl in *; lia).
  reflexivity.
Qed.

Lemma chunk_text_short_witness :
  chunk_text (txt "  intro   to
 logic ") 500 50 = Ok [txt "intro to logic"].
Proof.
  apply (chunk_text_short (txt "  intro   to
 logic ") 500 50); (lia || discriminate || (simpl; lia)).
Defined.

End ChunkerMore.

(** ** More on ranking *)

Section SliceFacts.
Context {A : Type}.

Lemma slice_In (l : list A) (lo hi : Z) (x : A) : In x (slice l lo hi) -> In x l.
Proof.
  unfold slice. intros Hin.
  rewrite <- (firstn_skipn (Z.to_nat (clamp_index (Z.of_nat (length l)) lo)) l).
  apply in_or_app. right.
  set (rest := skipn _ l) in *.
  rewrite <- (firstn_skipn
                (Z.to_nat (clamp_index (Z.of_nat (length l)) hi
                           - clamp_index (Z.of_nat (length l)) lo)) rest).
  apply in_or_app. now left.
Qed.

Lemma slice_length (l : list A) (lo hi : Z) :
  (length (slice l lo hi) <= length l)%nat.
Proof. unfold slice. rewrite length_firstn, length_skipn. lia. Qed.

Lemma slice_nil (lo hi : Z) : slice (@nil A) lo hi = [].
Proof. unfold slice. now rewrite skipn_nil, firstn_nil. Qed.

End SliceFacts.

Section RankingMore.
Import EmbeddingsManager.
Context {Vec Score : Type}.
Variable embed_text : str -> Vec.
Variable embed_texts : list str -> list Vec.
Variable similarity : Vec -> Vec -> Score.
Variable lt : Score -> Score -> bool.

Hypothesis embed_texts_each :
  forall texts, embed_texts texts = map embed_text texts.

Local Abbreviation search := (search embed_text embed_texts similarity lt).
Local Abbreviation batch_search := (batch_search embed_text embed_texts similarity lt).

(** Whatever [top_k] is, also a negative one, [search] succeeds and
    every pair it returns is a document of the corpus with its own
    score; it never returns more pairs than there are documents. *)
Theorem search_hits_from_corpus (query : str) (documents : list str) (top_k : Z) :
  exists results,
    search query documents top_k = Ok results
    /\ (length results <= length documents)%nat
    /\ forall doc s, In (doc, s) results ->
         In doc documents
         /\ s = similarity (embed_text query) (embed_text doc).
Proof.
  eexists. split; [now apply search_eq|]. split.
  - unfold slice_to. etransitivity; [apply slice_length|].
    now rewrite sort_desc_length, scored_length.
  - intros doc s Hin. apply slice_In in Hin.
    apply (Permutation_in _ (sort_desc_perm lt snd _)) in Hin.
    unfold scored in Hin. apply in_map_iff in Hin as (d & [= <- <-] & Hd).
    now split.
Qed.

(** Asking for more results only appends: the answer for [k] is the
    beginning of the answer for any larger [k']. *)
Theorem search_prefix (query : str) (documents : list str) (k k' : Z) :
  0 <= k -> k <= k' ->
  exists results results',
    search query documents k = Ok results
    /\ search query documents k' = Ok results'
    /\ results = firstn (Z.to_nat k) results'.
Proof.
  intros Hk Hk'. do 2 eexists.
  split; [now apply search_eq|]. split; [now apply search_eq|].
  rewrite !slice_to_firstn by lia. rewrite firstn_firstn.
  f_equal. lia.
Qed.

End RankingMore.

Lemma search_hits_from_corpus_witness :
  exists results,
    ToyModel.search (txt "pets") [txt "cats"; txt "rockets fly"; txt "dogs"] (-2)
    = Ok results
    /\ (length results <= 3)%nat.
Proof.
  destruct (search_hits_from_corpus ToyModel.embed_text ToyModel.embed_texts
              ToyModel.similarity Z.ltb (fun _ => eq_refl) (txt "pets")
              [txt "cats"; txt "rockets fly"; txt "dogs"] (-2))
    as (results & Hrun & Hlen & _).
  exists results. split; [exact Hrun | exact Hlen].
Defined.

Lemma search_prefix_witness :
  exists results results',
    ToyModel.search (txt "pets") [txt "cats"; txt "rockets fly"; txt "dogs"] 1
    = Ok results
    /\ ToyModel.search (txt "pets") [txt "cats"; txt "rockets fly"; txt "dogs"] 2
       = Ok results'
    /\ results = firstn (Z.to_nat 1) results'.
Proof.
  apply (search_prefix ToyModel.embed_text ToyModel.embed_texts
           ToyModel.similarity Z.ltb (fun _ => eq_refl)); lia.
Defined.

Section BatchSizes.
Import EmbeddingsManager.
Context {Vec Score : Type}.
Variable embed_text : str -> Vec.
Variable embed_texts : list str -> list Vec.
Variable similarity : Vec -> Vec -> Score.
Variable lt : Score -> Score -> bool.

(** A batch size of zero makes [batch_search] raise the [ValueError] of
    [range]; a negative one makes it return no result at all, whatever
    the corpus and [top_k]. *)
Theorem batch_search_bad_chunk_size (query : str) (documents : list str)
    (chunk_size top_k : Z) :
  (chunk_size = 0 ->
   batch_search embed_text embed_texts similarity lt query documents
     chunk_size top_k
   = Raise (ValueError "range() arg 3 must not be zero"))
  /\ (chunk_size < 0 ->
      batch_search embed_text embed_texts similarity lt query documents
        chunk_size top_k = Ok []).
Proof.
  unfold batch_search, range. split.
  - intros ->. reflexivity.
  - intros Hneg. destruct (Z.eqb_spec chunk_size 0); [lia|].
    unfold range_len.
    destruct (Z.ltb_spec 0 chunk_size); [lia|].
    destruct (Z.ltb_spec (Z.of_nat (length documents)) 0); [lia|].
    cbn [seq map fold_left bind sort_desc fold_right].
    unfold slice_to. now rewrite slice_nil.
Qed.

End BatchSizes.

Lemma batch_search_bad_chunk_size_witness :
  ToyModel.batch_search (txt "pets") [txt "cats"; txt "dogs"] (-1) 5 = Ok [].
Proof.
  apply (batch_search_bad_chunk_size ToyModel.embed_text ToyModel.embed_texts
           ToyModel.similarity Z.ltb). lia.
Defined.

(** ** More on the similarities *)

Section SimilarityMore.
Local Open Scope float_scope.

Lemma cosine_similarity_zero_norm_witness :
  EmbeddingsManager.cosine_similarity [0; 0] [3; 4] = Ok 0.
Proof.
  apply cosine_similarity_zero_norm; [reflexivity|].
  left. reflexivity.
Defined.

(** On vectors of different lengths [np.dot] raises: the method of
    [EmbeddingsManager] passes the [ValueError] on, before it looks at
    the norms, while the module-level [similarity] turns it into [0.0]. *)
Theorem similarity_dimension_mismatch (a b : list float) :
  length a <> length b ->
  (exists e, EmbeddingsManager.cosine_similarity a b = Raise e
             /\ exn_class e = "ValueError")
  /\ Embeddings.similarity a b = 0.
Proof.
  intros Hlen. apply Nat.eqb_neq in Hlen.
  unfold EmbeddingsManager.cosine_similarity, Embeddings.similarity, np_dot.
  rewrite Hlen. split; [|reflexivity].
  eexists. split; reflexivity.
Qed.

Lemma similarity_dimension_mismatch_witness :
  Embeddings.similarity [0] [1; 2] = 0.
Proof.
  apply (similarity_dimension_mismatch [0] [1; 2]). simpl. lia.
Defined.

End SimilarityMore.

(** ** [find_similar] *)

Section FindSimilarFacts.
Import Embeddings.
Context {Dict : Type}.
Variable vector : Dict -> pyresult (list float).

Lemma similar_loop_raise q (pairs : list (nat * Dict)) e :
  fold_left (similar_step vector q) pairs (Raise e) = Raise e.
Proof. induction pairs as [|ie pairs IH]; simpl; [reflexivity | apply IH]. Qed.

(** The loop fails exactly when one of the dictionaries has no vector. *)
Lemma similar_loop_raises q (pairs : list (nat * Dict)) acc :
  raises (fold_left (similar_step vector q) pairs (Ok acc)) = true
  <-> Exists (fun d => raises (vector d) = true) (map snd pairs).
Proof.
  revert acc. induction pairs as [|ie pairs IH]; intros acc; cbn [fold_left map].
  - simpl. split; [discriminate | intros H; inversion H].
  - unfold similar_step at 2. cbn [bind].
    destruct (vector (snd ie)) as [v|e] eqn:Hv; cbn [bind].
    + rewrite IH. rewrite Exists_cons, Hv. simpl. intuition discriminate.
    + rewrite similar_loop_raise. rewrite Exists_cons, Hv. simpl. intuition.
Qed.

(** When all have one, it yields one entry per dictionary, in order. *)
Lemma similar_loop_ok q (pairs : list (nat * Dict)) acc :
  Forall (fun d => raises (vector d) = false) (map snd pairs) ->
  exists sims,
    fold_left (similar_step vector q) pairs (Ok acc) = Ok (acc ++ sims)
    /\ map snd sims = map snd pairs.
Proof.
  revert acc. induction pairs as [|ie pairs IH]; intros acc Hall;
    cbn [fold_left map] in *.
  - exists []. now rewrite app_nil_r.
  - inversion Hall as [|? ? Hie Hrest]; subst.
    unfold similar_step at 2. cbn [bind].
    destruct (vector (snd ie)) as [v|e]; [|discriminate]. cbn [bind].
    destruct (IH (acc ++ [(fst ie, similarity q v, snd ie)]) Hrest)
      as (sims & Hrun & Hsnd).
    exists ((fst ie, similarity q v, snd ie) :: sims). split.
    + rewrite Hrun. now rewrite <- app_assoc.
    + simpl. now rewrite Hsnd.
Qed.

Lemma enumerate_snd (l : list Dict) :
  map snd (combine (seq 0 (length l)) l) = l.
Proof.
  generalize 0%nat. induction l as [|x l IH]; intros n; simpl; [reflexivity|].
  now rewrite IH.
Qed.

(** [find_similar] raises exactly when the query is not empty and one
    of the dictionaries has no ["vector"]; with an empty query or no
    dictionaries it returns the empty list without looking at them. *)
Theorem find_similar_raises_iff (query_embedding : list float)
    (embeddings : list Dict) (top_k : Z) :
  (raises (find_similar vector query_embedding embeddings top_k) = true
   <-> query_embedding <> []
       /\ Exists (fun d => raises (vector d) = true) embeddings)
  /\ (query_embedding = [] \/ embeddings = [] ->
      find_similar vector query_embedding embeddings top_k = Ok []).
Proof.
  unfold find_similar. split.
  - destruct embeddings as [|d ds].
    { simpl. split; [discriminate | intros [_ H]; inversion H]. }
    destruct query_embedding as [|x q].
    { simpl. split; [discriminate | now intros [H _]]. }
    set (embs := d :: ds). set (query := x :: q).
    pose proof (similar_loop_raises query
                  (combine (seq 0 (length embs)) embs) []) as Hloop.
    rewrite enumerate_snd in Hloop.
    destruct (fold_left _ _ _) as [sims|e]; cbn [bind raises] in *.
    + rewrite <- Hloop. intuition discriminate.
    + rewrite <- Hloop. intuition discriminate.
  - intros [-> | ->]; [now destruct embeddings | reflexivity].
Qed.

(** For a non-empty query and dictionaries that all have a vector,
    [find_similar] returns dictionaries of the input only: the first
    [top_k] of a rearrangement of them, all of them when [top_k] is at
    least their number. *)
Theorem find_similar_results (query_embedding : list float)
    (embeddings : list Dict) (top_k : Z) :
  query_embedding <> [] ->
  Forall (fun d => raises (vector d) = false) embeddings ->
  exists results,
    find_similar vector query_embedding embeddings top_k = Ok results
    /\ (forall d, In d results -> In d embeddings)
    /\ (0 <= top_k ->
        length results = Nat.min (Z.to_nat top_k) (length embeddings))
    /\ (Z.of_nat (length embeddings) <= top_k ->
        Permutation results embeddings).
Proof.
  intros Hq Hall. unfold find_similar.
  destruct embeddings as [|d ds].
  { exists []. repeat split; try easy. intros _. simpl. lia. }
  destruct query_embedding as [|x q]; [contradiction|].
  set (embs := d :: ds) in *. set (query := x :: q).
  destruct (similar_loop_ok query (combine (seq 0 (length embs)) embs) [])
    as (sims & Hrun & Hsnd); [now rewrite enumerate_snd|].
  rewrite enumerate_snd in Hsnd. rewrite Hrun. cbn [bind app].
  set (key := fun s : nat * float * Dict => snd (fst s)).
  assert (Hlen : length sims = length embs)
    by (rewrite <- Hsnd; now rewrite length_map).
  eexists. split; [reflexivity|]. split; [|split].
  - intros d' Hin. apply in_map_iff in Hin as (s & <- & Hin).
    apply slice_In in Hin.
    apply (Permutation_in _ (sort_desc_perm PrimFloat.ltb key sims)) in Hin.
    rewrite <- Hsnd. now apply in_map.
  - intros Hk. rewrite length_map, slice_to_firstn by assumption.
    rewrite length_firstn, sort_desc_length. lia.
  - intros Hk. rewrite slice_to_firstn by lia.
    rewrite firstn_all2 by (rewrite sort_desc_length; lia).
    rewrite <- Hsnd. apply Permutation_map. apply sort_desc_perm.
Qed.

End FindSimilarFacts.

Lemma find_similar_raises_iff_witness :
  Embeddings.find_similar (fun d : option (list float) =>
                  match d with
                  | Some v => Ok v
                  | None => Raise (Exn "KeyError" "'vector'")
                  end) [] [None; Some [1%float]] 5 = Ok [].
Proof.
  apply find_similar_raises_iff. now left.
Defined.

Lemma find_similar_results_witness :
  exists results,
    Embeddings.find_similar (fun v : list float => Ok v) [1%float; 0%float]
      [[0%float; 1%float]; [1%float; 0%float]; [1%float; 1%float]] 2
    = Ok results
    /\ length results = Nat.min (Z.to_nat 2) 3.
Proof.
  destruct (find_similar_results (fun v : list float => Ok v)
              [1%float; 0%float]
              [[0%float; 1%float]; [1%float; 0%float]; [1%float; 1%float]] 2)
    as (results & Hrun & _ & Hlen & _).
  - discriminate.
  - repeat constructor.
  - exists results. split; [exact Hrun | apply Hlen; lia].
Defined.

(** ** The cached model of [embeddings.py] *)

Section ModelCache.
Import Embeddings.
Context {Model : Type}.
Variable encode : Model -> str -> pyresult (list float).
Variable encode_many : Model -> list str -> pyresult (list (list float)).

(** What the loader or the encoder raises reaches the caller of
    [embed_text] only when it is not an [Exception]. *)
Lemma embed_text_raises (SentenceTransformer : string -> pyresult Model)
    (text : str) (embedding_model : option Model) (e : exn) :
  fst (embed_text SentenceTransformer encode text embedding_model) = Raise e
  <-> is_Exception e = false
      /\ ((embedding_model = None
           /\ SentenceTransformer "sentence-transformers/all-MiniLM-L6-v2"
              = Raise e)
          \/ exists m,
               fst (get_embeddings_model SentenceTransformer embedding_model)
               = Ok (Some m)
               /\ encode m text = Raise e).
Proof.
  unfold embed_text, get_embeddings_model.
  destruct embedding_model as [m|]; simpl.
  - destruct (encode m text) as [v|e'] eqn:Henc; simpl.
    + split; [discriminate|]. intros (_ & [[? _]|(m' & ? & ?)]); congruence.
    + destruct (is_Exception e') eqn:He'; simpl.
      * split; [discriminate|].
        intros (? & [[? _]|(m' & ? & ?)]); congruence.
      * split.
        -- intros [= <-]. split; [done|]. right. now exists m.
        -- intros (_ & [[? _]|(m' & ? & ?)]); congruence.
  - destruct (SentenceTransformer _) as [m|e'] eqn:Hload; simpl.
    + destruct (encode m text) as [v|e''] eqn:Henc; simpl.
      * split; [discriminate|]. intros (_ & [[_ ?]|(m' & ? & ?)]); congruence.
      * destruct (is_Exception e'') eqn:He''; simpl.
        -- split; [discriminate|].
           intros (? & [[_ ?]|(m' & ? & ?)]); congruence.
        -- split.
           ++ intros [= <-]. split; [done|]. right. now exists m.
           ++ intros (_ & [[_ ?]|(m' & ? & ?)]); congruence.
    + destruct (is_Exception e') eqn:He'; simpl.
      * split; [discriminate|].
        intros (? & [[_ ?]|(m' & ? & ?)]); congruence.
      * split.
        -- intros [= <-]. split; [done|]. now left.
        -- intros (_ & [[_ ?]|(m' & ? & ?)]); congruence.
Qed.

(** [embed_text] and [embed_texts] never raise an [Exception], whatever
    the loader and the encoder do and whether or not a model is cached:
    an error of either is answered with the empty list.  What they do
    raise is what [except Exception] lets through, an exception of the
    loader or of the encoder that is not an [Exception]; with a loader
    and an encoder that raise nothing else than [Exception]s they do not
    raise at all. *)
Theorem embed_raises_no_Exception
    (SentenceTransformer : string -> pyresult Model)
    (text : str) (texts : list str) (embedding_model : option Model) :
  (forall e,
      fst (embed_text SentenceTransformer encode text embedding_model) = Raise e
      \/ fst (embed_texts SentenceTransformer encode_many texts embedding_model)
         = Raise e ->
      is_Exception e = false
      /\ (SentenceTransformer "sentence-transformers/all-MiniLM-L6-v2" = Raise e
          \/ (exists m, encode m text = Raise e)
          \/ exists m, encode_many m texts = Raise e))
  /\ ((forall name e, SentenceTransformer name = Raise e -> is_Exception e = true) ->
      (forall m e, encode m text = Raise e -> is_Exception e = true) ->
      (forall m e, encode_many m texts = Raise e -> is_Exception e = true) ->
      raises (fst (embed_text SentenceTransformer encode text embedding_model))
      = false
      /\ raises (fst (embed_texts SentenceTransformer encode_many texts
                        embedding_model)) = false).
Proof.
  assert (Hmany : forall e,
             fst (embed_texts SentenceTransformer encode_many texts
                    embedding_model) = Raise e ->
             is_Exception e = false
             /\ (SentenceTransformer "sentence-transformers/all-MiniLM-L6-v2"
                 = Raise e
                 \/ exists m, encode_many m texts = Raise e)).
  { intros e. unfold embed_texts, get_embeddings_model.
    destruct embedding_model as [m|]; simpl.
    - destruct texts as [|t ts]; [discriminate|].
      destruct (encode_many m (t :: ts)) as [v|e'] eqn:Henc; [discriminate|].
      destruct (is_Exception e') eqn:He'; simpl; [discriminate|].
      intros [= <-]. split; [done|]. right. now exists m.
    - destruct (SentenceTransformer _) as [m|e'] eqn:Hload; simpl.
      + destruct texts as [|t ts]; [discriminate|].
        destruct (encode_many m (t :: ts)) as [v|e''] eqn:Henc; [discriminate|].
        destruct (is_Exception e'') eqn:He''; simpl; [discriminate|].
        intros [= <-]. split; [done|]. right. now exists m.
      + destruct (is_Exception e') eqn:He'; simpl; [destruct texts; discriminate|].
        destruct texts; intros [= <-]; (split; [done | now left]). }
  assert (Hone : forall e,
             fst (embed_text SentenceTransformer encode text embedding_model)
             = Raise e ->
             is_Exception e = false
             /\ (SentenceTransformer "sentence-transformers/all-MiniLM-L6-v2"
                 = Raise e
                 \/ exists m, encode m text = Raise e)).
  { intros e He. apply embed_text_raises in He as (Hno & [[_ Hload]|(m & _ & Henc)]).
    - split; [done | now left].
    - split; [done|]. right. now exists m. }
  split.
  - intros e [He|He].
    + destruct (Hone e He) as (Hno & [Hload|Henc]); split; auto.
    + destruct (Hmany e He) as (Hno & [Hload|Henc]); split; auto.
  - intros Hload Henc Hencs. split.
    + destruct (fst (embed_text _ _ _ _)) as [v|e]; [reflexivity|].
      destruct (Hone e eq_refl) as (Hno & [Hl|[m Hm]]).
      * rewrite (Hload _ _ Hl) in Hno. discriminate.
      * rewrite (Henc _ _ Hm) in Hno. discriminate.
    + destruct (fst (embed_texts _ _ _ _)) as [v|e]; [reflexivity|].
      destruct (Hmany e eq_refl) as (Hno & [Hl|[m Hm]]).
      * rewrite (Hload _ _ Hl) in Hno. discriminate.
      * rewrite (Hencs _ _ Hm) in Hno. discriminate.
Qed.

(** The model is loaded once and kept: after a call that loaded [m],
    every later call encodes with [m] and does not consult the loader
    again, whatever it would do now.  A failed load is not remembered:
    the global stays unset and the next call loads again. *)
Theorem model_loaded_once (load load' : string -> pyresult Model)
    (text text' : str) :
  (forall m,
      load "sentence-transformers/all-MiniLM-L6-v2" = Ok m ->
      snd (embed_text load encode text None) = Some m
      /\ embed_text load' encode text' (snd (embed_text load encode text None))
         = (match encode m text' with
            | Ok embedding => Ok embedding
            | Raise e => if is_Exception e then Ok [] else Raise e
            end, Some m))
  /\ (forall e m',
         load "sentence-transformers/all-MiniLM-L6-v2" = Raise e ->
         load' "sentence-transformers/all-MiniLM-L6-v2" = Ok m' ->
         snd (embed_text load encode text None) = None
         /\ snd (embed_text load' encode text'
                   (snd (embed_text load encode text None))) = Some m').
Proof.
  unfold embed_text, get_embeddings_model. split.
  - intros m ->. destruct (encode m text) as [v|e]; simpl;
      try destruct (is_Exception e); simpl;
      (split; [reflexivity|]);
      destruct (encode m text') as [v'|e']; simpl;
      try destruct (is_Exception e'); reflexivity.
  - intros e m' -> Hload'. destruct (is_Exception e); simpl; rewrite Hload';
      (split; [reflexivity|]);
      destruct (encode m' text') as [v'|e']; simpl;
      try destruct (is_Exception e'); reflexivity.
Qed.

End ModelCache.

Lemma embed_raises_no_Exception_witness :
  raises (fst (Embeddings.embed_text NoModel.SentenceTransformer NoModel.encode
                 (txt "hello") None)) = false
  /\ raises (fst (Embeddings.embed_texts NoModel.SentenceTransformer
                    NoModel.encode_many [txt "hello"] None)) = false.
Proof.
  apply (embed_raises_no_Exception NoModel.encode NoModel.encode_many
           NoModel.SentenceTransformer (txt "hello") [txt "hello"] None).
  - intros name e [= <-]. reflexivity.
  - intros m e. discriminate.
  - intros m e. discriminate.
Defined.

Lemma model_loaded_once_witness :
  snd (Embeddings.embed_text (fun _ => Ok tt)
         (fun _ text => Ok [1%float]) (txt "a") None) = Some tt
  /\ Embeddings.embed_text NoModel.SentenceTransformer
       (fun _ text => Ok [1%float]) (txt "b")
       (snd (Embeddings.embed_text (fun _ => Ok tt)
               (fun _ text => Ok [1%float]) (txt "a") None))
     = (Ok [1%float], Some tt).
Proof.
  apply (model_loaded_once (fun _ text => Ok [1%float])
           (fun _ => Ok tt) NoModel.SentenceTransformer (txt "a") (txt "b")).
  reflexivity.
Defined.

(** ** More on the task manager: all runs, also with resubmission *)

Section TasksMore.
Import TaskManager.

Lemma run_cons ev evs s s'' :
  run (ev :: evs) s = Some s'' ->
  exists s', step ev s = Some s' /\ run evs s' = Some s''.
Proof.
  simpl. destruct (step ev s) as [s'|]; [|done]. intros H. now exists s'.
Qed.

(** What every step keeps holds after every run. *)
Lemma run_invariant (P : pool -> Prop) :
  (forall ev s s', P s -> step ev s = Some s' -> P s') ->
  forall evs s s', P s -> run evs s = Some s' -> P s'.
Proof.
  intros Hstep evs. induction evs as [|ev evs IH]; intros s s' HP Hrun.
  - now simplify_eq/=.
  - apply run_cons in Hrun as (s1 & Hs1 & Hrun).
    apply (IH s1); [|done]. now apply (Hstep ev s).
Qed.

(** Assigning to one entry of a record keeps what holds of all records. *)
Lemma alter_keeps (Q : task -> Prop) (f : task -> task) (k : string)
    (reg : gmap string task) :
  (forall t, Q t -> Q (f t)) ->
  (forall id t, reg !! id = Some t -> Q t) ->
  forall id t, alter f k reg !! id = Some t -> Q t.
Proof.
  intros Hf Hreg id t Ht.
  apply lookup_alter_Some in Ht as [(-> & t0 & Ht0 & ->)|(_ & Ht)].
  - apply Hf. now apply (Hreg id).
  - now apply (Hreg id).
Qed.

Lemma step_progress ev s s' :
  (forall id t, tasks_tracking s !! id = Some t -> progress_in_range t) ->
  step ev s = Some s' ->
  forall id t, tasks_tracking s' !! id = Some t -> progress_in_range t.
Proof.
  intros HP Hstep. destruct s as [reg q a].
  destruct ev as [id0 w now| |n|id0 p now|id0]; simpl in *.
  - simplify_eq/=. intros id t Ht.
    apply lookup_insert_Some in Ht as [[_ <-]|[_ Ht]];
      [unfold progress_in_range; simpl; lia | now apply (HP id)].
  - destruct q as [|j q]; [done|]. destruct (_ <? _)%nat; simplify_eq/=.
    now apply alter_keeps.
  - unfold advance in Hstep. simpl in Hstep.
    destruct (a !! n) as [[j ph]|]; [|done].
    destruct (after_call (job_work j)); [| |done]; [|now simplify_eq/=].
    destruct ph; simplify_eq/=.
    + unfold assign_status. destruct (job_work j); try done;
        now apply alter_keeps.
    + unfold assign_payload. destruct (job_work j); try done;
        now apply alter_keeps.
    + unfold assign_progress. destruct (job_work j); try done;
        (apply alter_keeps; [|done]);
        intros t _; unfold progress_in_range; simpl; lia.
  - unfold update_task_progress in Hstep. simpl in Hstep.
    destruct (reg !! id0); simplify_eq/=; [|done].
    apply alter_keeps; [now intros t1 Ht1|].
    apply alter_keeps; [|done].
    intros t1 _. unfold progress_in_range. simpl. lia.
  - now simplify_eq.
Qed.

(** In every state that any sequence of operations reaches, the
    progress of every task is between 0 and 100. *)
Theorem progress_always_in_range (evs : list event) (s : pool)
    (task_id : string) (t : task) :
  run evs initial = Some s ->
  get_task_status task_id s = Some t ->
  0 <= progress t <= 100.
Proof.
  intros Hrun Ht.
  assert (Hinit : forall id t0, tasks_tracking initial !! id = Some t0 ->
                                progress_in_range t0)
    by (intros id t0 H; unfold initial in H; cbn [tasks_tracking] in H;
        now rewrite lookup_empty in H).
  exact (run_invariant
           (fun s => forall id t0, tasks_tracking s !! id = Some t0 ->
                                   progress_in_range t0)
           step_progress evs initial s Hinit Hrun task_id t Ht).
Qed.

Lemma step_keeps_records ev s s' id :
  is_Some (tasks_tracking s !! id) -> step ev s = Some s' ->
  is_Some (tasks_tracking s' !! id).
Proof.
  intros Hid Hstep. destruct s as [reg q a].
  destruct ev as [id0 w now| |n|id0 p now|id0]; simpl in *.
  - simplify_eq/=. apply lookup_insert_is_Some'. now right.
  - destruct q as [|j q]; [done|]. destruct (_ <? _)%nat; simplify_eq/=.
    now apply lookup_alter_is_Some.
  - unfold advance in Hstep. simpl in Hstep.
    destruct (a !! n) as [[j ph]|]; [|done].
    destruct (after_call (job_work j)); [| |done]; [|now simplify_eq/=].
    destruct ph; simplify_eq/=;
      unfold assign_status, assign_payload, assign_progress;
      destruct (job_work j); try done; now apply lookup_alter_is_Some.
  - unfold update_task_progress in Hstep. simpl in Hstep.
    destruct (reg !! id0); simplify_eq/=; [|done].
    now rewrite !lookup_alter_is_Some.
  - now simplify_eq.
Qed.

(** No operation removes a record: a task that can be looked up once
    can be looked up for ever, whatever is done afterwards. *)
Theorem records_never_removed (evs : list event) (s s' : pool)
    (task_id : string) :
  run evs s = Some s' ->
  is_Some (get_task_status task_id s) ->
  is_Some (get_task_status task_id s').
Proof.
  intros Hrun Hid.
  apply (run_invariant (fun s => is_Some (tasks_tracking s !! task_id))
           (fun ev s s' => step_keeps_records ev s s' task_id) evs s s');
    done.
Qed.

Lemma Forall_registered_alter {A} (key : A -> string) (f : task -> task)
    (k : string) (reg : gmap string task) (l : list A) :
  Forall (fun x => is_Some (reg !! key x)) l ->
  Forall (fun x => is_Some (alter f k reg !! key x)) l.
Proof.
  intros H. eapply Forall_impl; [exact H|].
  intros x Hx. now apply lookup_alter_is_Some.
Qed.

Lemma step_registered ev s s' :
  jobs_registered s -> step ev s = Some s' -> jobs_registered s'.
Proof.
  intros [Hq Ha] Hstep. destruct s as [reg q a]. unfold jobs_registered.
  destruct ev as [id0 w now| |n|id0 p now|id0]; simpl in *.
  - simplify_eq/=. split.
    + apply Forall_app. split.
      * eapply Forall_impl; [exact Hq|]. intros j Hj.
        apply lookup_insert_is_Some'. now right.
      * constructor; [|constructor]. simpl.
        apply lookup_insert_is_Some'. now left.
    + eapply Forall_impl; [exact Ha|]. intros jp Hjp.
      apply lookup_insert_is_Some'. now right.
  - destruct q as [|j q]; [done|]. destruct (_ <? _)%nat; simplify_eq/=.
    inversion Hq as [|? ? Hj Hq']; subst. split.
    + now apply Forall_registered_alter.
    + apply Forall_app. split; [now apply Forall_registered_alter|].
      constructor; [|constructor]. simpl. now apply lookup_alter_is_Some.
  - unfold advance in Hstep. simpl in Hstep.
    destruct (a !! n) as [[j ph]|] eqn:Hn; [|done].
    assert (Hj : is_Some (reg !! job_id j))
      by apply (Forall_lookup_1 _ _ _ _ Ha Hn).
    destruct (after_call (job_work j)); [| |done];
      [|simplify_eq/=; split; [done | now apply Forall_delete]].
    destruct ph; simplify_eq/=;
      unfold assign_status, assign_payload, assign_progress;
      destruct (job_work j);
      (split; [first [done | now apply Forall_registered_alter]|]);
      try (apply Forall_insert;
           [first [done | now apply Forall_registered_alter]|];
           simpl; first [done | now apply lookup_alter_is_Some]);
      apply Forall_delete; first [done | now apply Forall_registered_alter].
  - unfold update_task_progress in Hstep. simpl in Hstep.
    destruct (reg !! id0); simplify_eq/=; [|done].
    split; now do 2 apply Forall_registered_alter.
  - now simplify_eq.
Qed.

(** In every state that any sequence of operations reaches, also with
    ids submitted twice, every queued or running work item has its
    record: the lookups of [_execute_task] never raise [KeyError].  The
    call returns normally when the work returns or raises an
    [Exception]; the only exception that leaves it is one of the work
    that is not an [Exception]. *)
Theorem work_items_have_records (evs : list event) (s : pool) (j : job) :
  run evs initial = Some s ->
  In j (queue s) \/ (exists ph, In (j, ph) (active s)) ->
  is_Some (get_task_status (job_id j) s)
  /\ fst <$> _execute_task (job_id j) (job_work j) (tasks_tracking s)
     = match job_work j with
       | Returns _ => Some (Ok tt)
       | Raises e => Some (if is_Exception e then Ok tt else Raise e)
       | Blocks => None
       end.
Proof.
  intros Hrun Hin.
  assert (Hreg : jobs_registered s).
  { apply (run_invariant jobs_registered step_registered evs initial s);
      [|done]. split; constructor. }
  destruct Hreg as [Hq Ha].
  assert (Hj : is_Some (tasks_tracking s !! job_id j)).
  { destruct Hin as [Hin|[ph Hin]].
    - apply (proj1 (Forall_forall _ _) Hq j). now apply list_elem_of_In.
    - apply (proj1 (Forall_forall _ _) Ha (j, ph)). now apply list_elem_of_In. }
  split; [exact Hj | now apply execute_task_registered].
Qed.

(** [update_task_progress] on an unknown id changes nothing, it creates
    no record.  On a known id it stores the progress cut to the range
    0..100 and the time, and leaves status, result and error, the other
    records and the executor as they are. *)
Theorem update_task_progress_effect (s : pool) (task_id : string) (p now : Z) :
  (get_task_status task_id s = None ->
   update_task_progress task_id p now s = s)
  /\ (forall t, get_task_status task_id s = Some t ->
        get_task_status task_id (update_task_progress task_id p now s)
        = Some (Task (status t) (created_at t) now (result t) (error t)
                  (Z.min 100 (Z.max 0 p))))
  /\ (forall other, other <> task_id ->
        get_task_status other (update_task_progress task_id p now s)
        = get_task_status other s)
  /\ queue (update_task_progress task_id p now s) = queue s
  /\ active (update_task_progress task_id p now s) = active s.
Proof.
  unfold get_task_status, update_task_progress.
  destruct (tasks_tracking s !! task_id) as [t|] eqn:Ht; simpl.
  - split; [discriminate|]. split; [|split; [|done]].
    + intros t' [= <-]. now rewrite !lookup_alter_eq, Ht.
    + intros other Hne. now rewrite !lookup_alter_ne.
  - split; [done|]. split; [discriminate|]. now split.
Qed.

(** Submitting a work to an idle executor and letting its thread run
    it as far as it goes ends with the record of the task showing the
    outcome, a record that was there under the same id being replaced:
    completed with the result and progress 100; failed with the message
    and progress 0 when the work raises an [Exception]; and still
    running, without result or error, when the work raises anything
    else or does not return.  The executor is idle again, except that a
    work that does not return keeps its thread.  No worker can do
    anything more: the record stays as it is. *)
Theorem submit_and_run (s : pool) (task_id : string) (work : outcome) (now : Z) :
  queue s = [] -> active s = [] ->
  run (Submit task_id work now :: worker_events work) s
  = Some (Pool (<[task_id := final_record work now]> (tasks_tracking s)) []
            (still_running task_id work))
  /\ forall ev, worker_event ev ->
       step ev (Pool (<[task_id := final_record work now]> (tasks_tracking s)) []
                  (still_running task_id work)) = None.
Proof.
  destruct s as [reg q a]. simpl. intros -> ->.
  unfold worker_events, still_running, final_record.
  assert (Hidle : forall reg' ev, worker_event ev -> step ev (Pool reg' [] []) = None).
  { intros reg' ev [->|[n ->]]; [reflexivity|]. now destruct n. }
  destruct work as [v|e|]; simpl.
  - split; [|apply Hidle].
    unfold advance, assign_progress, assign_payload, assign_status, assign_running.
    simpl. now rewrite !alter_insert_eq.
  - destruct (is_Exception e) eqn:He; simpl; (split; [|apply Hidle]).
    + unfold advance, assign_progress, assign_payload, assign_status,
        assign_running. simpl. repeat (rewrite He; simpl).
      now rewrite !alter_insert_eq.
    + unfold advance, assign_running. simpl. rewrite He.
      now rewrite !alter_insert_eq.
  - split.
    + unfold assign_running. now rewrite !alter_insert_eq.
    + intros ev [->|[n ->]]; [reflexivity|]. now destruct n as [|[|n]].
Qed.

(** Whatever has been submitted (no id twice), as long as every call
    of a work the executor holds comes to an end, the worker threads
    alone can take the executor to a state in which nothing is queued
    or running and every task submitted has the record of its outcome:
    completed with its result, failed with the message of its
    [Exception], or left running, without result or error, by an
    exception that is not an [Exception]. *)
Theorem all_tasks_can_finish (evs : list event) (s : pool) :
  run_fresh evs initial = Some s ->
  terminating s ->
  exists evs' s',
    Forall worker_event evs'
    /\ run_fresh evs' s = Some s'
    /\ queue s' = [] /\ active s' = []
    /\ forall task_id work now,
         In (Submit task_id work now) evs ->
         exists t, get_task_status task_id s' = Some t
                   /\ status t = final_status work
                   /\ finished work t.
Proof.
  intros Hrun Hterm.
  destruct (drain s Hterm) as (evs' & s' & Hev & Hrun' & Hq & Ha).
  exists evs', s'. repeat split; try done.
  intros task_id work now Hin.
  assert (Hall : run_fresh (evs ++ evs') initial = Some s')
    by (apply run_fresh_app; now exists s).
  destruct (submitted_Tracks (evs ++ evs') initial s' task_id work now
              Inv_initial Hall) as [[pos Hpos]|(_ & t & Ht & Hfin)].
  { apply in_or_app. now left. }
  { exfalso. unfold jobs in Hpos. rewrite Hq, Ha in Hpos.
    now apply elem_of_nil in Hpos. }
  exists t. split; [exact Ht|]. split; [apply Hfin | exact Hfin].
Qed.

End TasksMore.

Lemma progress_always_in_range_witness :
  exists t,
    TaskManager.get_task_status "t1"
      (TaskManager.Pool
         (<["t1" := TaskManager.Task TaskManager.running 1 2 None None 100]> ∅)
         [] [(TaskManager.Job "t1" (TaskManager.Returns None), TaskManager.Started)])
    = Some t
    /\ 0 <= TaskManager.progress t <= 100.
Proof.
  eexists. split; [reflexivity|].
  apply (progress_always_in_range
           [TaskManager.Submit "t1" (TaskManager.Returns None) 1;
            TaskManager.Dispatch; TaskManager.Progress "t1" 250 2]
           (TaskManager.Pool
              (<["t1" := TaskManager.Task TaskManager.running 1 2 None None 100]> ∅)
              [] [(TaskManager.Job "t1" (TaskManager.Returns None),
                   TaskManager.Started)])
           "t1"); reflexivity.
Defined.

Lemma records_never_removed_witness :
  is_Some (TaskManager.get_task_status "t1"
             (TaskManager.Pool
                (<["t1" := TaskManager.Task TaskManager.failed 1 1 None
                             (Some "boom") 0]> ∅) [] [])).
Proof.
  apply (records_never_removed
           [TaskManager.Dispatch; TaskManager.Advance 0; TaskManager.Advance 0;
            TaskManager.Advance 0]
           (snd (TaskManager.submit_task "t1"
                   (TaskManager.Raises (ValueError "boom")) 1
                   TaskManager.initial))).
  - reflexivity.
  - eexists. reflexivity.
Defined.

Lemma work_items_have_records_witness :
  is_Some (TaskManager.get_task_status "t1"
             (snd (TaskManager.submit_task "t1" (TaskManager.Returns None) 1
                     TaskManager.initial))).
Proof.
  apply (work_items_have_records
           [TaskManager.Submit "t1" (TaskManager.Returns None) 1]
           _ (TaskManager.Job "t1" (TaskManager.Returns None))).
  - reflexivity.
  - left. simpl. now left.
Defined.

Lemma update_task_progress_effect_witness :
  TaskManager.update_task_progress "nobody" 50 3 TaskManager.initial
  = TaskManager.initial.
Proof.
  apply (update_task_progress_effect TaskManager.initial "nobody" 50 3).
  reflexivity.
Defined.

Lemma submit_and_run_witness :
  TaskManager.run
    [TaskManager.Submit "t1" (TaskManager.Raises (ValueError "boom")) 4;
     TaskManager.Dispatch; TaskManager.Advance 0; TaskManager.Advance 0;
     TaskManager.Advance 0] TaskManager.initial
  = Some (TaskManager.Pool
            (<["t1" := TaskManager.Task TaskManager.failed 4 4 None
                         (Some "boom") 0]> ∅) [] []).
Proof.
  destruct (submit_and_run TaskManager.initial "t1"
              (TaskManager.Raises (ValueError "boom")) 4 eq_refl eq_refl)
    as [Hrun _].
  exact Hrun.
Defined.

Lemma all_tasks_can_finish_witness :
  exists evs' s',
    run_fresh evs'
      (TaskManager.Pool
         (<["t1" := TaskManager.fresh_task 1]> ∅)
         [TaskManager.Job "t1" (TaskManager.Returns (Some "ok"))] []) = Some s'
    /\ TaskManager.queue s' = [] /\ TaskManager.active s' = []
    /\ exists t, TaskManager.get_task_status "t1" s' = Some t
                 /\ TaskManager.status t = TaskManager.completed.
Proof.
  destruct (all_tasks_can_finish
              [TaskManager.Submit "t1" (TaskManager.Returns (Some "ok")) 1] _
              eq_refl)
    as (evs' & s' & _ & Hrun & Hq & Ha & Hall).
  - split; repeat constructor. discriminate.
  - exists evs', s'. repeat split; try assumption.
    destruct (Hall "t1" (TaskManager.Returns (Some "ok")) 1) as (t & Ht & Hst & _);
      [now left|].
    now exists t.
Defined.

(** ** The OCR task *)

Section ProcessFile.
Import OCRTask.
Variable extract_from_pdf : str -> pyresult str.
Variable extract_from_pptx : str -> pyresult str.
Variable extract_from_image : str -> pyresult str.

Lemma chunk_text_default text :
  OCRProcessor.chunk_text text 500 50 = Ok (default_chunks text).
Proof. now rewrite chunk_text_valid by lia. Qed.

(** [process_file] decides by the end of the path alone: [.pdf] and
    [.pptx] as written, [.png], [.jpg] and [.jpeg] in any case of the
    letters.  The type it then passes to [extract_text] selects the
    matching extractor; the default chunking of the extracted text
    cannot fail, and [chunk_count] is the number of chunks.  Any other
    path is refused with a [ValueError] before anything is read. *)
Theorem process_file_routes (file_path : str) :
  let finish (extracted : pyresult str) : pyresult ocr_result :=
    text <- extracted ;;
    Ok (OcrResult text (default_chunks text)
          (Z.of_nat (length (default_chunks text)))) in
  process_file extract_from_pdf extract_from_pptx extract_from_image file_path
  = if endswith file_path (txt ".pdf")
    then finish (extract_from_pdf file_path)
    else if endswith file_path (txt ".pptx")
    then finish (extract_from_pptx file_path)
    else if endswith_any (lower file_path) [txt ".png"; txt ".jpg"; txt ".jpeg"]
    then finish (extract_from_image file_path)
    else Raise (ValueError (String.append "Unsupported file type: "
                              (string_of_list_ascii file_path))).
Proof.
  intros finish. unfold process_file.
  destruct (endswith file_path (txt ".pdf")).
  { cbn [bind].
    change (OCRProcessor.extract_text _ _ _ file_path (txt "application/pdf"))
      with (extract_from_pdf file_path).
    unfold finish. destruct (extract_from_pdf file_path); cbn [bind]; [|reflexivity].
    now rewrite chunk_text_default. }
  destruct (endswith file_path (txt ".pptx")).
  { cbn [bind].
    change (OCRProcessor.extract_text _ _ _ file_path _)
      with (extract_from_pptx file_path).
    unfold finish. destruct (extract_from_pptx file_path); cbn [bind]; [|reflexivity].
    now rewrite chunk_text_default. }
  destruct (endswith_any (lower file_path) _); [|reflexivity].
  cbn [bind].
  change (OCRProcessor.extract_text _ _ _ file_path _)
    with (extract_from_image file_path).
  unfold finish. destruct (extract_from_image file_path); cbn [bind]; [|reflexivity].
  now rewrite chunk_text_default.
Qed.

End ProcessFile.

(** ** The search handler *)

Section SearchHandler.
Import SearchRouter.
Context {Vec Score : Type}.
Variable embed_text : str -> Vec.
Variable embed_texts : list str -> list Vec.
Variable similarity : Vec -> Vec -> Score.
Variable lt : Score -> Score -> bool.
Variable get_embeddings_manager : handled unit.

Local Abbreviation search :=
  (EmbeddingsManager.search embed_text embed_texts similarity lt).
Local Abbreviation semantic_search :=
  (semantic_search embed_text embed_texts similarity lt get_embeddings_manager).

Lemma default_chunks_nil : default_chunks [] = [].
Proof. reflexivity. Qed.

Lemma collect_loop (lectures : list Lecture) all_chunks chunk_metadata :
  fold_left collect_step lectures (Ok (all_chunks, chunk_metadata))
  = Ok (all_chunks ++ concat (map lecture_chunks lectures),
        chunk_metadata ++ concat (map lecture_metadata lectures)).
Proof.
  revert all_chunks chunk_metadata.
  induction lectures as [|lecture lectures IH]; intros all_chunks chunk_metadata;
    cbn [fold_left map concat].
  - now rewrite !app_nil_r.
  - unfold collect_step at 2. cbn [bind fst snd].
    unfold lecture_metadata, lecture_chunks.
    destruct (extracted_text lecture) as [[|c text]|].
    + rewrite IH. now rewrite default_chunks_nil.
    + rewrite chunk_text_default. cbn [bind]. rewrite IH.
      now rewrite <- !app_assoc.
    + rewrite IH. reflexivity.
Qed.

Lemma metadata_contents (lectures : list Lecture) :
  map meta_content (concat (map lecture_metadata lectures))
  = concat (map lecture_chunks lectures).
Proof.
  induction lectures as [|lecture lectures IH]; [reflexivity|].
  cbn [map concat]. rewrite map_app, IH. f_equal.
  unfold lecture_metadata. rewrite map_map. simpl. apply map_id.
Qed.

Lemma find_app_first {A} (p : A -> bool) (l1 l2 : list A) :
  find p (l1 ++ l2)
  = match find p l1 with Some x => Some x | None => find p l2 end.
Proof.
  induction l1 as [|x l1 IH]; [reflexivity|]. simpl.
  now destruct (p x).
Qed.

(** The entry found for a chunk belongs to the first lecture that has
    this chunk. *)
Lemma find_first_lecture (c : str) (lectures : list Lecture) (m : metadata) :
  find (fun m => bool_decide (meta_content m = c))
       (concat (map lecture_metadata lectures)) = Some m ->
  exists before lecture after,
    lectures = before ++ lecture :: after
    /\ meta_lecture_id m = id lecture
    /\ meta_lecture_title m = title lecture
    /\ In c (lecture_chunks lecture)
    /\ forall l, In l before -> ~ In c (lecture_chunks l).
Proof.
  induction lectures as [|lecture lectures IH]; [discriminate|].
  cbn [map concat]. rewrite find_app_first.
  destruct (find _ (lecture_metadata lecture)) as [m'|] eqn:Hfind.
  - intros [= ->]. apply find_some in Hfind as [Hin Hc].
    apply bool_decide_eq_true in Hc.
    unfold lecture_metadata in Hin.
    apply in_map_iff in Hin as (c' & <- & Hin). simpl in Hc. subst c'.
    exists [], lecture, lectures. repeat split; try done.
  - intros Hrest. destruct (IH Hrest) as (before & l & after & -> & ? & ? & ? & Hb).
    exists (lecture :: before), l, after. repeat split; try done.
    intros l' [<-|Hin]; [|now apply Hb].
    intros Hc.
    pose proof (find_none _ _ Hfind
                  (Metadata (id lecture) (title lecture) c)) as Hnone.
    assert (Hm : In (Metadata (id lecture) (title lecture) c)
                    (lecture_metadata lecture))
      by (unfold lecture_metadata; now apply in_map).
    specialize (Hnone Hm). simpl in Hnone.
    apply bool_decide_eq_false in Hnone. now apply Hnone.
Qed.

Lemma find_content (c : str) (metas : list metadata) :
  In c (map meta_content metas) ->
  exists m, find (fun m => bool_decide (meta_content m = c)) metas = Some m.
Proof.
  intros Hin. destruct (find _ metas) as [m|] eqn:Hfind; [now exists m|].
  apply in_map_iff in Hin as (m & Hm & Hin).
  pose proof (find_none _ _ Hfind m Hin) as Hnone. simpl in Hnone.
  apply bool_decide_eq_false in Hnone. contradiction.
Qed.

(** [search] returns documents of the corpus only, whatever the model. *)
Lemma search_docs_in_corpus (query : str) (documents : list str) (top_k : Z) :
  exists hits,
    search query documents top_k = Ok hits
    /\ forall hit, In hit hits -> In (fst hit) documents.
Proof.
  eexists. split; [reflexivity|]. intros hit Hin.
  apply slice_In in Hin.
  apply (Permutation_in _ (sort_desc_perm lt snd _)) in Hin.
  unfold EmbeddingsManager.score_all in Hin.
  apply in_map_iff in Hin as ([d v] & <- & Hin). simpl.
  now apply in_combine_l in Hin.
Qed.

(** One result per hit, in the order of the hits. *)
Lemma results_of_hits (metas : list metadata) (hits : list (str * Score)) :
  (forall hit, In hit hits -> In (fst hit) (map meta_content metas)) ->
  map (fun r => (content r, score r)) (concat (map (result_for metas) hits))
  = hits.
Proof.
  induction hits as [|hit hits IH]; intros Hall; [reflexivity|].
  cbn [map concat]. rewrite map_app, IH by (intros h Hh; apply Hall; now right).
  unfold result_for.
  destruct (find_content (fst hit) metas (Hall hit ltac:(now left))) as [m ->].
  simpl. now destruct hit.
Qed.

(** When there are lectures with chunks and the manager is there, the
    handler answers with exactly the hits of [search] over all chunks,
    in their order and with their scores, [total_results] being their
    number.  Each result names the first lecture (in the order of the
    query) that has the chunk among its chunks. *)
Theorem semantic_search_attribution (request_query : str) (request_top_k : Z)
    (lectures : list Lecture) :
  concat (map lecture_chunks lectures) <> [] ->
  get_embeddings_manager = Returned tt ->
  exists hits response,
    search request_query (concat (map lecture_chunks lectures)) request_top_k
    = Ok hits
    /\ semantic_search request_query request_top_k lectures = Returned response
    /\ query response = request_query
    /\ map (fun r => (content r, score r)) (results response) = hits
    /\ total_results response = Z.of_nat (length hits)
    /\ forall r, In r (results response) ->
         exists before lecture after,
           lectures = before ++ lecture :: after
           /\ lecture_id r = id lecture
           /\ lecture_title r = title lecture
           /\ In (content r) (lecture_chunks lecture)
           /\ forall l, In l before -> ~ In (content r) (lecture_chunks l).
Proof.
  intros Hchunks Hmgr.
  destruct (search_docs_in_corpus request_query
              (concat (map lecture_chunks lectures)) request_top_k)
    as (hits & Hsearch & Hdocs).
  assert (Hres : map (fun r => (content r, score r))
                   (concat (map (result_for
                                   (concat (map lecture_metadata lectures))) hits))
                 = hits).
  { apply results_of_hits. intros hit Hin.
    rewrite metadata_contents. now apply Hdocs. }
  exists hits. eexists. split; [exact Hsearch|].
  unfold SearchRouter.semantic_search.
  destruct lectures as [|lecture lectures]; [now contradiction Hchunks|].
  rewrite collect_loop. cbn [app].
  destruct (concat (map lecture_chunks (lecture :: lectures))) as [|c cs] eqn:Hall;
    [contradiction|].
  rewrite Hmgr, Hsearch.
  split; [reflexivity|]. cbn [query results total_results].
  split; [reflexivity|]. split; [exact Hres|]. split.
  - rewrite <- Hres at 2. now rewrite length_map.
  - intros r Hin. apply in_concat in Hin as (rs & Hrs & Hin).
    apply in_map_iff in Hrs as (hit & <- & Hhit).
    unfold result_for in Hin.
    destruct (find _ _) as [m|] eqn:Hfind; [|contradiction].
    destruct Hin as [<-|[]]. cbn [content lecture_id lecture_title].
    now apply find_first_lecture.
Qed.


End SearchHandler.

Lemma semantic_search_attribution_witness :
  exists hits response,
    ToyModel.search (txt "pets") [txt "cats and dogs"; txt "rockets fly"] 1
    = Ok hits
    /\ SearchRouter.semantic_search ToyModel.embed_text ToyModel.embed_texts
         ToyModel.similarity Z.ltb (SearchRouter.Returned tt) (txt "pets") 1
         [SearchRouter.Build_Lecture 1 (txt "Pets") (Some (txt "cats  and dogs"));
          SearchRouter.Build_Lecture 2 (txt "Space") None;
          SearchRouter.Build_Lecture 3 (txt "Rockets") (Some (txt "rockets fly"))]
       = SearchRouter.Returned response
    /\ SearchRouter.total_results response = Z.of_nat (length hits).
Proof.
  destruct (semantic_search_attribution ToyModel.embed_text ToyModel.embed_texts
              ToyModel.similarity Z.ltb (SearchRouter.Returned tt) (txt "pets") 1
              [SearchRouter.Build_Lecture 1 (txt "Pets") (Some (txt "cats  and dogs"));
               SearchRouter.Build_Lecture 2 (txt "Space") None;
               SearchRouter.Build_Lecture 3 (txt "Rockets") (Some (txt "rockets fly"))])
    as (hits & response & Hsearch & Hrun & _ & _ & Htotal & _).
  - intros H. vm_compute in H. discriminate H.
  - reflexivity.
  - exists hits, response. split; [exact Hsearch|]. split; [exact Hrun | exact Htotal].
Defined.


(** ** The handler of similar lectures *)

Section SimilarHandler.
Import SearchRouter.
Context {Vec Score : Type}.
Variable embed_text : str -> Vec.
Variable embed_texts : list str -> list Vec.
Variable similarity : Vec -> Vec -> Score.
Variable lt : Score -> Score -> bool.
Variable get_embeddings_manager : handled unit.

Local Abbreviation search :=
  (EmbeddingsManager.search embed_text embed_texts similarity lt).
Local Abbreviation get_similar_lectures :=
  (get_similar_lectures embed_text embed_texts similarity lt
     get_embeddings_manager).

Lemma startswith_firstn (t : str) (n : nat) : startswith t (firstn n t) = true.
Proof.
  revert n. induction t as [|c t IH]; intros [|n]; simpl; try reflexivity.
  now rewrite Ascii.eqb_refl, IH.
Qed.

(** A text starts with the first 500 characters of its first 1000. *)
Lemma startswith_content (t : str) :
  startswith t (slice_to (slice_to t 1000) 500) = true.
Proof.
  rewrite !slice_to_firstn by lia. rewrite firstn_firstn.
  apply startswith_firstn.
Qed.

Lemma find_first {A} (p : A -> bool) (l : list A) (x : A) :
  find p l = Some x ->
  exists before after,
    l = before ++ x :: after
    /\ p x = true
    /\ forall y, In y before -> p y = false.
Proof.
  induction l as [|a l IH]; [discriminate|]. simpl.
  destruct (p a) eqn:Ha.
  - intros [= ->]. exists [], l. repeat split; try done.
  - intros Hfind. destruct (IH Hfind) as (before & after & -> & Hx & Hb).
    exists (a :: before), after. repeat split; try done.
    intros y [<-|Hy]; [exact Ha | now apply Hb].
Qed.

Lemma similar_loop (others : list OtherLecture) (hits : list (str * Score))
    (R : str * Score -> @SimilarLecture Score -> Prop) :
  (forall hit, In hit hits ->
     exists sim, similar_for others hit = [sim] /\ R hit sim) ->
  Forall2 R hits (concat (map (similar_for others) hits)).
Proof.
  induction hits as [|hit hits IH]; intros Hall; [constructor|].
  cbn [map concat].
  destruct (Hall hit ltac:(now left)) as (sim & -> & HR).
  constructor; [exact HR|]. apply IH. intros h Hh. apply Hall. now right.
Qed.

(** For a source lecture with at least one chunk and other lectures to
    compare with, the handler searches the first 1000 characters of
    the others with the first chunk of the source as the query, and
    answers with one entry per hit, at most five, carrying the score of
    the hit.  The lecture it names is the first of the other lectures
    (in the order of the query) whose text starts with the first 500
    characters of the hit. *)
Theorem similar_lectures_attribution (source : Lecture) (text : str)
    (source_chunk : str) (more_chunks : list str)
    (other_lectures : list OtherLecture) :
  extracted_text source = Some text ->
  default_chunks text = source_chunk :: more_chunks ->
  other_lectures <> [] ->
  get_embeddings_manager = Returned tt ->
  exists hits similar_lectures,
    search source_chunk
      (map (fun l => slice_to (other_text l) 1000) other_lectures) 5 = Ok hits
    /\ get_similar_lectures (Some source) other_lectures
       = Returned similar_lectures
    /\ (length similar_lectures <= 5)%nat
    /\ Forall2
         (fun hit sim =>
            similarity_score sim = snd hit
            /\ exists before l after,
                 other_lectures = before ++ l :: after
                 /\ similar_id sim = other_id l
                 /\ similar_title sim = other_title l
                 /\ similar_subject_id sim = other_subject_id l
                 /\ startswith (other_text l) (slice_to (fst hit) 500) = true
                 /\ forall l', In l' before ->
                      startswith (other_text l') (slice_to (fst hit) 500) = false)
         hits similar_lectures.
Proof.
  intros Htext Hchunks Hothers Hmgr.
  destruct (search_docs_in_corpus embed_text embed_texts similarity lt source_chunk
              (map (fun l => slice_to (other_text l) 1000) other_lectures) 5)
    as (hits & Hsearch & Hdocs).
  assert (Hlen : (length hits <= 5)%nat).
  { unfold EmbeddingsManager.search in Hsearch. injection Hsearch as <-.
    rewrite slice_to_firstn by lia. rewrite length_firstn. lia. }
  assert (Hloop : Forall2
            (fun hit sim =>
               similarity_score sim = snd hit
               /\ exists before l after,
                    other_lectures = before ++ l :: after
                    /\ similar_id sim = other_id l
                    /\ similar_title sim = other_title l
                    /\ similar_subject_id sim = other_subject_id l
                    /\ startswith (other_text l) (slice_to (fst hit) 500) = true
                    /\ forall l', In l' before ->
                         startswith (other_text l') (slice_to (fst hit) 500)
                         = false)
            hits (concat (map (similar_for other_lectures) hits))).
  { apply similar_loop. intros hit Hin. unfold similar_for.
    destruct (find _ other_lectures) as [l|] eqn:Hfind.
    - eexists. split; [reflexivity|]. split; [reflexivity|].
      destruct (find_first _ _ _ Hfind) as (before & after & Heq & Hl & Hb).
      exists before, l, after. repeat split; assumption.
    - exfalso. apply Hdocs in Hin.
      apply in_map_iff in Hin as (l & Hl & Hin).
      pose proof (find_none _ _ Hfind l Hin) as Hnone. simpl in Hnone.
      rewrite <- Hl, startswith_content in Hnone. discriminate. }
  exists hits, (concat (map (similar_for other_lectures) hits)).
  split; [exact Hsearch|]. split; [|split; [|exact Hloop]].
  - unfold SearchRouter.get_similar_lectures. rewrite Htext.
    destruct text as [|c text]; [discriminate Hchunks|].
    destruct other_lectures as [|o others]; [contradiction|].
    rewrite chunk_text_default, Hchunks, Hmgr, Hsearch. reflexivity.
  - apply Forall2_length in Hloop. rewrite <- Hloop. exact Hlen.
Qed.


End SimilarHandler.

Lemma similar_lectures_attribution_witness :
  exists hits similar_lectures,
    ToyModel.search (txt "cats and dogs")
      [txt "dogs and cats"; txt "rockets"] 5 = Ok hits
    /\ SearchRouter.get_similar_lectures ToyModel.embed_text ToyModel.embed_texts
         ToyModel.similarity Z.ltb (SearchRouter.Returned tt)
         (Some (SearchRouter.Build_Lecture 1 (txt "Pets")
                  (Some (txt "cats and   dogs"))))
         [SearchRouter.Build_OtherLecture 2 (txt "More pets")
            (txt "dogs and cats") (Some 7);
          SearchRouter.Build_OtherLecture 3 (txt "Space") (txt "rockets") None]
       = SearchRouter.Returned similar_lectures
    /\ (length similar_lectures <= 5)%nat.
Proof.
  destruct (similar_lectures_attribution ToyModel.embed_text ToyModel.embed_texts
              ToyModel.similarity Z.ltb (SearchRouter.Returned tt)
              (SearchRouter.Build_Lecture 1 (txt "Pets")
                 (Some (txt "cats and   dogs")))
              (txt "cats and   dogs") (txt "cats and dogs") []
              [SearchRouter.Build_OtherLecture 2 (txt "More pets")
                 (txt "dogs and cats") (Some 7);
               SearchRouter.Build_OtherLecture 3 (txt "Space") (txt "rockets") None])
    as (hits & sims & Hsearch & Hrun & Hlen & _);
    [reflexivity | reflexivity | discriminate | reflexivity |].
  exists hits, sims. split; [exact Hsearch|]. split; [exact Hrun | exact Hlen].
Defined.


(** ** Chunk sizes and the best hit *)

Section ChunkSizes.
Import OCRProcessor.

(** Chunk [j] holds [chunk_size] tokens, or as many as the text has left
    from token [j * (chunk_size - overlap)] on, and at least one. *)
Theorem chunk_text_sizes (text : str) (chunk_size overlap : Z)
    (chunks : list str) (j : nat) (chunk : str) :
  0 < chunk_size -> overlap < chunk_size ->
  chunk_text text chunk_size overlap = Ok chunks ->
  nth_error chunks j = Some chunk ->
  (0 < length (split chunk))%nat
  /\ length (split chunk)
     = Nat.min (Z.to_nat chunk_size)
         (length (split text) - j * Z.to_nat (chunk_size - overlap)).
Proof.
  intros Hsize Hov Hrun Hj.
  pose proof (chunk_text_tokens text chunk_size overlap chunks Hsize Hov Hrun)
    as Htok.
  assert (Hj' : nth_error (map split chunks) j = Some (split chunk))
    by (rewrite nth_error_map, Hj; reflexivity).
  rewrite Htok in Hj'. unfold sliding_windows in Hj'.
  rewrite windows_from_nth in Hj' by lia.
  destruct (Nat.ltb_spec (j * Z.to_nat (chunk_size - overlap))
              (length (split text))); [|discriminate].
  injection Hj' as <-. rewrite length_firstn, length_skipn. lia.
Qed.

Lemma chunk_text_sizes_witness :
  (0 < length (split (txt "e f")))%nat
  /\ length (split (txt "e f"))
     = Nat.min (Z.to_nat 3) (length (split (txt "a b c d e f")) - 2 * Z.to_nat (3 - 1)).
Proof.
  apply (chunk_text_sizes (txt "a b c d e f") 3 1
           [txt "a b c"; txt "c d e"; txt "e f"] 2);
    (lia || reflexivity).
Defined.

End ChunkSizes.

Section BestHit.
Import EmbeddingsManager.
Context {Vec Score : Type}.
Variable embed_text : str -> Vec.
Variable embed_texts : list str -> list Vec.
Variable similarity : Vec -> Vec -> Score.
Variable lt : Score -> Score -> bool.

Hypothesis embed_texts_each :
  forall texts, embed_texts texts = map embed_text texts.
Hypothesis lt_irrefl : forall x, lt x x = false.
Hypothesis lt_trans :
  forall x y z, lt x y = true -> lt y z = true -> lt x z = true.
Hypothesis lt_weak :
  forall x y z, lt x z = true -> lt x y = true \/ lt y z = true.

(** For a corpus that is not empty and [top_k >= 1] the first result of
    [search] is a document whose score no document of the corpus
    exceeds. *)
Theorem search_best_first (query : str) (documents : list str) (top_k : Z) :
  documents <> [] -> 0 < top_k ->
  exists best s rest,
    search embed_text embed_texts similarity lt query documents top_k
    = Ok ((best, s) :: rest)
    /\ In best documents
    /\ s = similarity (embed_text query) (embed_text best)
    /\ forall doc, In doc documents ->
         lt s (similarity (embed_text query) (embed_text doc)) = false.
Proof.
  intros Hne Hk.
  rewrite (search_eq embed_text embed_texts similarity lt embed_texts_each).
  rewrite slice_to_firstn by lia.
  set (corpus := scored embed_text similarity query documents).
  pose proof (sort_desc_perm lt snd corpus) as Hperm.
  pose proof (sort_desc_sorted lt snd lt_irrefl lt_trans lt_weak corpus) as Hsorted.
  destruct (sort_desc lt snd corpus) as [|[best s] ranking] eqn:Hsort.
  { apply Permutation_nil in Hperm. subst corpus. unfold scored in Hperm.
    destruct documents; [contradiction | discriminate]. }
  destruct (Z.to_nat top_k) as [|k] eqn:Hk'; [lia|].
  exists best, s, (firstn k ranking). split; [reflexivity|].
  assert (Hbest : In (best, s) corpus)
    by (apply (Permutation_in _ Hperm); now left).
  unfold corpus, scored in Hbest.
  apply in_map_iff in Hbest as (d & [= <- <-] & Hd).
  split; [exact Hd|]. split; [reflexivity|].
  intros doc Hdoc.
  assert (Hin : In (doc, similarity (embed_text query) (embed_text doc))
                   ((d, similarity (embed_text query) (embed_text d)) :: ranking)).
  { apply (Permutation_in _ (Permutation_sym Hperm)).
    unfold corpus, scored. apply in_map_iff. now exists doc. }
  destruct Hin as [[= -> _]|Hin]; [apply lt_irrefl|].
  unfold non_increasing in Hsorted. inversion Hsorted as [|? ? _ Hall]; subst.
  rewrite Forall_forall in Hall.
  apply (Hall (doc, similarity (embed_text query) (embed_text doc))).
  now apply list_elem_of_In.
Qed.

End BestHit.

Lemma search_best_first_witness :
  exists best s rest,
    ToyModel.search (txt "pets") [txt "rockets fly"; txt "cats"; txt "dogs"] 2
    = Ok ((best, s) :: rest)
    /\ In best [txt "rockets fly"; txt "cats"; txt "dogs"].
Proof.
  destruct (search_best_first ToyModel.embed_text ToyModel.embed_texts
              ToyModel.similarity Z.ltb (fun _ => eq_refl) Z.ltb_irrefl
              Zltb_trans Zltb_weak (txt "pets")
              [txt "rockets fly"; txt "cats"; txt "dogs"] 2)
    as (best & s & rest & Hrun & Hin & _); [discriminate | lia |].
  exists best, s, rest. split; [exact Hrun | exact Hin].
Defined.
